(** * Xtrack: thick combined-function dipole and the tracking guards

    A shallow embedding of
    - [xtrack/headers/checks.h] ([assert_tracking]) and
    - [xtrack/beam_elements/elements_src/combinedfunctiondipole.h]
      ([ThickCombinedFunctionDipole_track_local_particle]),
    followed by the properties the specification states about them.

    Conventions of the embedding.
    - A C [double] is a real number ([R]); [sqrt], [sin], [cos], [sinh]
      and [cosh] are the functions of the standard library of reals.
      Rounding, infinities and NaN are therefore outside this model, and
      [a / b] is the total division of [R] (with [/ 0 = 0]).  Its
      statements are formulas, branches and limits; where rounding or a
      division by zero decides, the module [Binary64] transcribes the
      same function over binary64 numbers and is evaluated.
    - [int64_t] and [int8_t] values are integers ([Z]); the code only
      compares and copies them.
    - A [LocalParticle*] is passed as a value and the updated particle is
      returned (explicit state passing). *)

From Stdlib Require PrimFloat.
From Stdlib Require Import Reals Lra Lia ZArith List Bool.
Import ListNotations.

Local Open Scope R_scope.

(** ** Particle state *)

(** Modelled from the spec: the [LocalParticle] structure and its
    accessors are generated code that is not part of the two source
    files.  The fields are those of the data model of the specification:
    the six phase-space coordinates, the energy coordinates [delta] and
    [ptau], the kinematic constants and the lifecycle fields. *)
Record LocalParticle : Type := mkLocalParticle {
  p_x : R;
  p_px : R;
  p_y : R;
  p_py : R;
  p_zeta : R;
  p_s : R;
  p_delta : R;
  p_ptau : R;
  p_beta0 : R;
  p_rvv : R;
  p_state : Z;
  p_at_turn : Z
}.

(** Modelled from the spec: the accessor of [x]. *)
Definition LocalParticle_get_x (part : LocalParticle) : R := p_x part.

(** Modelled from the spec: the accessor of [px]. *)
Definition LocalParticle_get_px (part : LocalParticle) : R := p_px part.

(** Modelled from the spec: the accessor of [y]. *)
Definition LocalParticle_get_y (part : LocalParticle) : R := p_y part.

(** Modelled from the spec: the accessor of [py]. *)
Definition LocalParticle_get_py (part : LocalParticle) : R := p_py part.

(** Modelled from the spec: the accessor of [zeta]. *)
Definition LocalParticle_get_zeta (part : LocalParticle) : R := p_zeta part.

(** Modelled from the spec: the accessor of [s]. *)
Definition LocalParticle_get_s (part : LocalParticle) : R := p_s part.

(** Modelled from the spec: the accessor of [delta]. *)
Definition LocalParticle_get_delta (part : LocalParticle) : R := p_delta part.

(** Modelled from the spec: the accessor of [ptau]. *)
Definition LocalParticle_get_ptau (part : LocalParticle) : R := p_ptau part.

(** Modelled from the spec: the accessor of [beta0]. *)
Definition LocalParticle_get_beta0 (part : LocalParticle) : R := p_beta0 part.

(** Modelled from the spec: the accessor of [rvv]. *)
Definition LocalParticle_get_rvv (part : LocalParticle) : R := p_rvv part.

(** Modelled from the spec: the accessor of [state]. *)
Definition LocalParticle_get_state (part : LocalParticle) : Z := p_state part.

(** Modelled from the spec: the accessor of [at_turn]. *)
Definition LocalParticle_get_at_turn (part : LocalParticle) : Z :=
  p_at_turn part.

(** The mutators are generated code as well.  The specification lists
    them as "particle mutators setting [x, px, y, py], incrementing
    [zeta] by a supplied delta, and incrementing [s]"; each one writes
    its own field only. *)

(** Modelled from the spec: the mutator setting [x]. *)
Definition LocalParticle_set_x (part : LocalParticle) (v : R) : LocalParticle :=
  mkLocalParticle v (p_px part) (p_y part) (p_py part) (p_zeta part)
    (p_s part) (p_delta part) (p_ptau part) (p_beta0 part) (p_rvv part)
    (p_state part) (p_at_turn part).

(** Modelled from the spec: the mutator setting [px]. *)
Definition LocalParticle_set_px (part : LocalParticle) (v : R) : LocalParticle :=
  mkLocalParticle (p_x part) v (p_y part) (p_py part) (p_zeta part)
    (p_s part) (p_delta part) (p_ptau part) (p_beta0 part) (p_rvv part)
    (p_state part) (p_at_turn part).

(** Modelled from the spec: the mutator setting [y]. *)
Definition LocalParticle_set_y (part : LocalParticle) (v : R) : LocalParticle :=
  mkLocalParticle (p_x part) (p_px part) v (p_py part) (p_zeta part)
    (p_s part) (p_delta part) (p_ptau part) (p_beta0 part) (p_rvv part)
    (p_state part) (p_at_turn part).

(** Modelled from the spec: the mutator setting [py]. *)
Definition LocalParticle_set_py (part : LocalParticle) (v : R) : LocalParticle :=
  mkLocalParticle (p_x part) (p_px part) (p_y part) v (p_zeta part)
    (p_s part) (p_delta part) (p_ptau part) (p_beta0 part) (p_rvv part)
    (p_state part) (p_at_turn part).

(** Modelled from the spec: the mutator incrementing [zeta]. *)
Definition LocalParticle_add_to_zeta (part : LocalParticle) (v : R)
  : LocalParticle :=
  mkLocalParticle (p_x part) (p_px part) (p_y part) (p_py part)
    (p_zeta part + v)
    (p_s part) (p_delta part) (p_ptau part) (p_beta0 part) (p_rvv part)
    (p_state part) (p_at_turn part).

(** Modelled from the spec: the mutator incrementing [s]. *)
Definition LocalParticle_add_to_s (part : LocalParticle) (v : R)
  : LocalParticle :=
  mkLocalParticle (p_x part) (p_px part) (p_y part) (p_py part) (p_zeta part)
    (p_s part + v)
    (p_delta part) (p_ptau part) (p_beta0 part) (p_rvv part)
    (p_state part) (p_at_turn part).

(** Modelled from the spec: [LocalParticle_kill_particle] is not in the
    source files either; the specification says that it "marks [the
    particle] dead with a supplied kill-reason code", the code being kept
    in the [state] field. *)
Definition LocalParticle_kill_particle (part : LocalParticle) (kill_state : Z)
  : LocalParticle :=
  mkLocalParticle (p_x part) (p_px part) (p_y part) (p_py part) (p_zeta part)
    (p_s part) (p_delta part) (p_ptau part) (p_beta0 part) (p_rvv part)
    kill_state (p_at_turn part).

(** ** [checks.h] *)

Module Checks.

(** [int8_t assert_tracking(LocalParticle* part, int64_t kill_state)]:
    the particle after the call, and the returned flag. *)
Definition assert_tracking (part : LocalParticle) (kill_state : Z)
  : LocalParticle * Z :=
  if (LocalParticle_get_at_turn part <? 0)%Z
  then (LocalParticle_kill_particle part kill_state, 0%Z)
  else (part, 1%Z).

(** [kill_all_particles]: the per-particle block applies the body to
    every particle of the batch. *)
Definition kill_all_particles (part0 : list LocalParticle) (kill_state : Z)
  : list LocalParticle :=
  map (fun part => LocalParticle_kill_particle part kill_state) part0.

End Checks.

(** ** [combinedfunctiondipole.h] *)

(** Modelled from the spec: the element data and its accessors are
    generated code too; the parameters are the four of the data model,
    [length], [k0], [k1] and [h]. *)
Record ThickCombinedFunctionDipoleData : Type :=
  mkThickCombinedFunctionDipoleData {
  el_length : R;
  el_k0 : R;
  el_k1 : R;
  el_h : R
}.

(** Modelled from the spec: the accessor of [length]. *)
Definition ThickCombinedFunctionDipoleData_get_length := el_length.

(** Modelled from the spec: the accessor of [k0]. *)
Definition ThickCombinedFunctionDipoleData_get_k0 := el_k0.

(** Modelled from the spec: the accessor of [k1]. *)
Definition ThickCombinedFunctionDipoleData_get_k1 := el_k1.

(** Modelled from the spec: the accessor of [h]. *)
Definition ThickCombinedFunctionDipoleData_get_h := el_h.

(** Comparisons of doubles, as booleans. *)
Definition Rltb (a b : R) : bool := if Rlt_dec a b then true else false.
Definition Rgtb (a b : R) : bool := Rltb b a.

Infix "<?" := Rltb : R_scope.
Infix ">?" := Rgtb : R_scope.

(** [#define POW2(X) ((X)*(X))] *)
Definition POW2 (X : R) : R := X * X.

(** [#define NONZERO(X) ((X) < 0.0 || (X) > 0.0)] *)
Definition NONZERO (X : R) : bool := (X <? 0.0) || (X >? 0.0).

Module CFD.

Section per_particle_block.

Variable el : ThickCombinedFunctionDipoleData.
Variable part : LocalParticle.

(* lines 17-20 *)
Definition length : R := ThickCombinedFunctionDipoleData_get_length el.
Definition k1_ : R := ThickCombinedFunctionDipoleData_get_k1 el.
Definition k0_ : R := ThickCombinedFunctionDipoleData_get_k0 el.
Definition h : R := ThickCombinedFunctionDipoleData_get_h el.

(* lines 23-28 *)
Definition beta0 : R := LocalParticle_get_beta0 part.
Definition x : R := LocalParticle_get_x part.
Definition y : R := LocalParticle_get_y part.
Definition px : R := LocalParticle_get_px part.
Definition py : R := LocalParticle_get_py part.
Definition pt : R := LocalParticle_get_ptau part.

(* lines 30-33 *)
Definition beti : R := 1.0 / (LocalParticle_get_rvv part * beta0).
Definition delta_plus_1 : R := LocalParticle_get_delta part + 1.
Definition bet : R := delta_plus_1 / (beti + pt).

(* lines 35-38 *)
Definition k0 : R := k0_ / delta_plus_1.
Definition k1 : R := k1_ / delta_plus_1.
Definition Kx : R := k0 * h + k1.
Definition Ky : R := - k1.

(* lines 42-55: the pair (Sx, Cx) *)
Definition SCx : R * R :=
  if Kx >? 0.0 then
    let sqrt_Kx := sqrt Kx in
    (sin (sqrt_Kx * length) / sqrt_Kx, cos (sqrt_Kx * length))
  else if Kx <? 0.0 then
    let sqrt_Kx := sqrt (- Kx) in
    (sinh (sqrt_Kx * length) / sqrt_Kx, cosh (sqrt_Kx * length))
  else
    (length, 1.0).
Definition Sx : R := fst SCx.
Definition Cx : R := snd SCx.

(* lines 57-70: the pair (Sy, Cy) *)
Definition SCy : R * R :=
  if Ky >? 0.0 then
    let sqrt_Ky := sqrt Ky in
    (sin (sqrt_Ky * length) / sqrt_Ky, cos (sqrt_Ky * length))
  else if Ky <? 0.0 then
    let sqrt_Ky := sqrt (- Ky) in
    (sinh (sqrt_Ky * length) / sqrt_Ky, cosh (sqrt_Ky * length))
  else
    (length, 1.0).
Definition Sy : R := fst SCy.
Definition Cy : R := snd SCy.

(* lines 73-78 *)
Definition xp : R := px / delta_plus_1.
Definition yp : R := py / delta_plus_1.
Definition A : R := - Kx * x - k0 + h.
Definition B : R := xp.
Definition C : R := - Ky * y.
Definition D : R := yp.

(* lines 81-84 *)
Definition x_0 : R := x * Cx + xp * Sx.
Definition y_ : R := y * Cy + yp * Sy.
Definition px_ : R := (A * Sx + B * Cx) * delta_plus_1.
Definition py_ : R := (C * Sy + D * Cy) * delta_plus_1.

(* lines 86-89 *)
Definition x_ : R :=
  if NONZERO Kx
  then x_0 + (k0 - h) * (Cx - 1.0) / Kx
  else x_0 - (k0 - h) * 0.5 * POW2 length.

(* lines 92-111: [length_] after the horizontal contributions *)
Definition length_h : R :=
  let length_ := length in
  if NONZERO Kx then
    let length_ :=
      length_ - (h * ((Cx - 1.0) * xp + Sx * A + length * (k0 - h))) / Kx in
    length_ + 0.5 * (
        - (POW2 A * Cx * Sx) / (2.0 * Kx)
        + (POW2 B * Cx * Sx) / 2.0
        + (POW2 A * length) / (2.0 * Kx)
        + (POW2 B * length) / 2.0
        - (A * B * POW2 Cx) / Kx
        + (A * B) / Kx)
  else
    let length_ :=
      length_ + h * length * (
          3.0 * length * xp
          + 6.0 * x
          - (k0 - h) * POW2 length) / 6.0 in
    length_ + 0.5 * (POW2 B) * length.

(* lines 113-125: [length_] after the vertical contribution *)
Definition length_ : R :=
  let length_ := length_h in
  if NONZERO Ky then
    length_ + 0.5 * (
        - (POW2 C * Cy * Sy) / (2.0 * Ky)
        + (POW2 D * Cy * Sy) / 2.0
        + (POW2 C * length) / (2.0 * Ky)
        + (POW2 D * length) / 2.0
        - (C * D * POW2 Cy) / Ky
        + (C * D) / Ky)
  else
    length_ + 0.5 * POW2 D * length.

(* line 126 *)
Definition z_ : R := length * beti - length_ / bet.

(* lines 128-133: the body of the per-particle block *)
Definition ThickCombinedFunctionDipole_track_local_particle
  : LocalParticle :=
  let part := LocalParticle_set_x part x_ in
  let part := LocalParticle_set_px part px_ in
  let part := LocalParticle_set_y part y_ in
  let part := LocalParticle_set_py part py_ in
  let part := LocalParticle_add_to_zeta part (z_ * beta0) in
  let part := LocalParticle_add_to_s part length in
  part.

End per_particle_block.

End CFD.

Abbreviation track := CFD.ThickCombinedFunctionDipole_track_local_particle.

(** ** Auxiliary definitions used by the statements *)

(** The three regimes of the pairs [(Sx, Cx)] and [(Sy, Cy)], as a
    function of the focusing constant and of the length. *)
Definition regime_S (K L : R) : R :=
  if K >? 0.0 then sin (sqrt K * L) / sqrt K
  else if K <? 0.0 then sinh (sqrt (- K) * L) / sqrt (- K)
  else L.

Definition regime_C (K L : R) : R :=
  if K >? 0.0 then cos (sqrt K * L)
  else if K <? 0.0 then cosh (sqrt (- K) * L)
  else 1.

(** A particle whose fields are physically consistent: [beta0 = 3/5],
    [delta = 3/2], hence [ptau = 7/6] and [rvv = 25/17]. *)
Definition off_momentum_particle : LocalParticle :=
  mkLocalParticle 0 0 0 0 0 0 (3/2) (7/6) (3/5) (25/17) 1 0.

(** The two path-length terms that have a zero-strength branch, in the
    specification's wording (section 4.1, step 7).  The cross term is
    quoted there in full; of the curvature term the specification only
    says that it has a closed form for [K <> 0] and a cubic one for
    [K = 0], so its two expressions are those of lines 94 and 105-109. *)
Definition spec_curvature_term (K k0_eff h x xp A S C L : R) : R :=
  if Req_dec_T K 0
  then h * L * (3 * L * xp + 6 * x - (k0_eff - h) * L ^ 2) / 6
  else - (h * ((C - 1) * xp + S * A + L * (k0_eff - h))) / K.

Definition spec_cross_term (K A B S C L : R) : R :=
  if Req_dec_T K 0
  then 0.5 * B ^ 2 * L
  else 0.5 * (- A ^ 2 * C * S / (2 * K) + B ^ 2 * C * S / 2
              + A ^ 2 * L / (2 * K) + B ^ 2 * L / 2
              - A * B * C ^ 2 / K + A * B / K).

(** The end-to-end scenario 1 of the specification: [Kx = 0.0004 > 0]
    selects the sine regime, [Ky = 0] the drift regime. *)
Definition scenario1_el : ThickCombinedFunctionDipoleData :=
  mkThickCombinedFunctionDipoleData 2.0 0.02 0.0 0.02.

Definition scenario1_part : LocalParticle :=
  mkLocalParticle 0.001 0.0 0.0005 0.0 0 0 0.0 0 1.0 1.0 1 0.

(** ** The map with its divisions recorded

    The same function, written in a writer monad: every [/] of the
    source records the expression it divides by and the value of that
    expression.  [track_traced] is shown below to compute the particle
    that [track] computes. *)

Module Traced.

(** The divisor expressions of the source. *)
Inductive divisor : Type :=
| by_rvv_beta0      (* line 30: [LocalParticle_get_rvv(part) * beta0] *)
| by_beti_pt        (* line 33: [beti + pt] *)
| by_delta_plus_1   (* lines 35, 36, 73, 74 *)
| by_sqrt_Kx        (* lines 44, 49 *)
| by_sqrt_Ky        (* lines 59, 64 *)
| by_Kx             (* lines 87, 94, 100, 101 *)
| by_2Kx            (* lines 96, 98: [2.0 * Kx] *)
| by_Ky             (* lines 119, 120 *)
| by_2Ky            (* lines 115, 117: [2.0 * Ky] *)
| by_literal        (* lines 97, 99, 109, 116, 118: [2.0] or [6.0] *)
| by_bet.           (* line 126 *)

Definition event : Type := (divisor * R)%type.

Definition Tr (T : Type) : Type := (T * list event)%type.

Definition ret {T : Type} (v : T) : Tr T := (v, []).

Definition bind {T U : Type} (m : Tr T) (f : T -> Tr U) : Tr U :=
  (fst (f (fst m)), snd m ++ snd (f (fst m))).

Definition div (d : divisor) (a b : R) : Tr R := (a / b, [(d, b)]).

Notation "v <- m ;; k" := (bind m (fun v => k))
  (at level 61, m at next level, right associativity).

Definition track_traced (el : ThickCombinedFunctionDipoleData)
    (part : LocalParticle) : Tr LocalParticle :=
  let length := ThickCombinedFunctionDipoleData_get_length el in
  let k1_ := ThickCombinedFunctionDipoleData_get_k1 el in
  let k0_ := ThickCombinedFunctionDipoleData_get_k0 el in
  let h := ThickCombinedFunctionDipoleData_get_h el in
  let beta0 := LocalParticle_get_beta0 part in
  let x := LocalParticle_get_x part in
  let y := LocalParticle_get_y part in
  let px := LocalParticle_get_px part in
  let py := LocalParticle_get_py part in
  let pt := LocalParticle_get_ptau part in
  beti <- div by_rvv_beta0 1.0 (LocalParticle_get_rvv part * beta0) ;;
  let delta_plus_1 := LocalParticle_get_delta part + 1 in
  bet <- div by_beti_pt delta_plus_1 (beti + pt) ;;
  k0 <- div by_delta_plus_1 k0_ delta_plus_1 ;;
  k1 <- div by_delta_plus_1 k1_ delta_plus_1 ;;
  let Kx := k0 * h + k1 in
  let Ky := - k1 in
  SCx <- (if Kx >? 0.0 then
            let sqrt_Kx := sqrt Kx in
            Sx <- div by_sqrt_Kx (sin (sqrt_Kx * length)) sqrt_Kx ;;
            ret (Sx, cos (sqrt_Kx * length))
          else if Kx <? 0.0 then
            let sqrt_Kx := sqrt (- Kx) in
            Sx <- div by_sqrt_Kx (sinh (sqrt_Kx * length)) sqrt_Kx ;;
            ret (Sx, cosh (sqrt_Kx * length))
          else
            ret (length, 1.0)) ;;
  let Sx := fst SCx in
  let Cx := snd SCx in
  SCy <- (if Ky >? 0.0 then
            let sqrt_Ky := sqrt Ky in
            Sy <- div by_sqrt_Ky (sin (sqrt_Ky * length)) sqrt_Ky ;;
            ret (Sy, cos (sqrt_Ky * length))
          else if Ky <? 0.0 then
            let sqrt_Ky := sqrt (- Ky) in
            Sy <- div by_sqrt_Ky (sinh (sqrt_Ky * length)) sqrt_Ky ;;
            ret (Sy, cosh (sqrt_Ky * length))
          else
            ret (length, 1.0)) ;;
  let Sy := fst SCy in
  let Cy := snd SCy in
  xp <- div by_delta_plus_1 px delta_plus_1 ;;
  yp <- div by_delta_plus_1 py delta_plus_1 ;;
  let A := - Kx * x - k0 + h in
  let B := xp in
  let C := - Ky * y in
  let D := yp in
  let x_ := x * Cx + xp * Sx in
  let y_ := y * Cy + yp * Sy in
  let px_ := (A * Sx + B * Cx) * delta_plus_1 in
  let py_ := (C * Sy + D * Cy) * delta_plus_1 in
  x_ <- (if NONZERO Kx then
           q <- div by_Kx ((k0 - h) * (Cx - 1.0)) Kx ;;
           ret (x_ + q)
         else
           ret (x_ - (k0 - h) * 0.5 * POW2 length)) ;;
  let length_ := length in
  length_ <- (if NONZERO Kx then
                q <- div by_Kx
                       (h * ((Cx - 1.0) * xp + Sx * A + length * (k0 - h)))
                       Kx ;;
                let length_ := length_ - q in
                t1 <- div by_2Kx (- (POW2 A * Cx * Sx)) (2.0 * Kx) ;;
                t2 <- div by_literal (POW2 B * Cx * Sx) 2.0 ;;
                t3 <- div by_2Kx (POW2 A * length) (2.0 * Kx) ;;
                t4 <- div by_literal (POW2 B * length) 2.0 ;;
                t5 <- div by_Kx (A * B * POW2 Cx) Kx ;;
                t6 <- div by_Kx (A * B) Kx ;;
                ret (length_ + 0.5 * (t1 + t2 + t3 + t4 - t5 + t6))
              else
                q <- div by_literal
                       (h * length * (
                            3.0 * length * xp
                            + 6.0 * x
                            - (k0 - h) * POW2 length))
                       6.0 ;;
                let length_ := length_ + q in
                ret (length_ + 0.5 * (POW2 B) * length)) ;;
  length_ <- (if NONZERO Ky then
                t1 <- div by_2Ky (- (POW2 C * Cy * Sy)) (2.0 * Ky) ;;
                t2 <- div by_literal (POW2 D * Cy * Sy) 2.0 ;;
                t3 <- div by_2Ky (POW2 C * length) (2.0 * Ky) ;;
                t4 <- div by_literal (POW2 D * length) 2.0 ;;
                t5 <- div by_Ky (C * D * POW2 Cy) Ky ;;
                t6 <- div by_Ky (C * D) Ky ;;
                ret (length_ + 0.5 * (t1 + t2 + t3 + t4 - t5 + t6))
              else
                ret (length_ + 0.5 * POW2 D * length)) ;;
  q <- div by_bet length_ bet ;;
  let z_ := length * beti - q in
  let part := LocalParticle_set_x part x_ in
  let part := LocalParticle_set_px part px_ in
  let part := LocalParticle_set_y part y_ in
  let part := LocalParticle_set_py part py_ in
  let part := LocalParticle_add_to_zeta part (z_ * beta0) in
  let part := LocalParticle_add_to_s part length in
  ret part.

(** What is required of a recorded division: a division by [Kx],
    [2.0 * Kx], [Ky] or [2.0 * Ky] has that value as divisor, is made
    under [NONZERO] of the constant, and its divisor is not zero. *)
Definition safe_event (Kx Ky : R) (ev : event) : Prop :=
  match fst ev with
  | by_Kx => snd ev = Kx /\ NONZERO Kx = true /\ snd ev <> 0
  | by_2Kx => snd ev = 2 * Kx /\ NONZERO Kx = true /\ snd ev <> 0
  | by_Ky => snd ev = Ky /\ NONZERO Ky = true /\ snd ev <> 0
  | by_2Ky => snd ev = 2 * Ky /\ NONZERO Ky = true /\ snd ev <> 0
  | _ => True
  end.

End Traced.

(** ** Series remainders, for the behaviour near a zero constant *)

(** Successive remainders of the sine and cosine series. *)
Definition trig_rem (n : nat) (c : R) : R :=
  match n with
  | 0%nat => cos c
  | 1%nat => sin c
  | 2%nat => 1 - cos c
  | 3%nat => c - sin c
  | 4%nat => c ^ 2 / 2 - (1 - cos c)
  | _ => c ^ 3 / 6 - (c - sin c)
  end.

(** Successive remainders of the hyperbolic series. *)
Definition hyp_rem (n : nat) (c : R) : R :=
  match n with
  | 0%nat => cosh c
  | 1%nat => sinh c
  | 2%nat => cosh c - 1
  | 3%nat => sinh c - c
  | 4%nat => cosh c - 1 - c ^ 2 / 2
  | _ => sinh c - c - c ^ 3 / 6
  end.

(** [1 / n!], built up the way the bounds are. *)
Fixpoint inv_fact (n : nat) : R :=
  match n with
  | O => 1
  | S m => inv_fact m / INR (S m)
  end.

(** First-order quotients of the regime functions, for [K <> 0]. *)
Definition regime_S1 (K L : R) : R := (regime_S K L - L) / K.

Definition regime_C1 (K L : R) : R := (regime_C K L - 1) / K.

(** The element with its quadrupole strength replaced: sweeping [k1],
    all other inputs fixed, moves [Kx] and [Ky] through 0. *)
Definition with_k1 (el : ThickCombinedFunctionDipoleData) (k : R)
  : ThickCombinedFunctionDipoleData :=
  mkThickCombinedFunctionDipoleData
    (el_length el) (el_k0 el) k (el_h el).

(** The element of the sweep whose [Kx] (resp. [Ky]) exceeds that of
    [el] by [K], for the particle [part]. *)
Definition sweep_Kx (el : ThickCombinedFunctionDipoleData)
    (part : LocalParticle) (K : R) : ThickCombinedFunctionDipoleData :=
  with_k1 el (el_k1 el + K * CFD.delta_plus_1 part).

Definition sweep_Ky (el : ThickCombinedFunctionDipoleData)
    (part : LocalParticle) (K : R) : ThickCombinedFunctionDipoleData :=
  with_k1 el (el_k1 el + K * - CFD.delta_plus_1 part).

(** A focusing constant other than 0. *)
Definition nonzero (K : R) : Prop := K <> 0.

(** A straight-reference dipole of unit length ([k0 = 1], [h = 0]) and
    quadrupole strength [k1], and the reference particle on its axis.
    At [k1 = 0] both [Kx] and [Ky] are 0 while [k0 - h] is not. *)
Definition kick_el : ThickCombinedFunctionDipoleData :=
  mkThickCombinedFunctionDipoleData 1 1 0 0.

Definition axis_particle : LocalParticle :=
  mkLocalParticle 0 0 0 0 0 0 0 0 1 1 1 0.

(** ** Definitions for the further properties of the map *)

(** The particle reflected in the horizontal midplane. *)
Definition mirror_y (part : LocalParticle) : LocalParticle :=
  mkLocalParticle (p_x part) (p_px part) (- p_y part) (- p_py part)
    (p_zeta part) (p_s part) (p_delta part) (p_ptau part)
    (p_beta0 part) (p_rvv part) (p_state part) (p_at_turn part).

(** The third function of the position update, next to [S] and [C]:
    [(C - 1) / K], and [- length ^ 2 / 2] in the drift regime (lines
    86-89), as a function of the constant and of the length. *)
Definition regime_E (K L : R) : R :=
  if NONZERO K then (regime_C K L - 1.0) / K else - (0.5 * POW2 L).

(** The second-order path-length excess of one plane for a focusing
    constant other than 0 (lines 94-102, and lines 114-121 with
    [h = 0] and [a = 0]), as a function of the constant [K], the
    curvature [h], [a = k0 - h], the length, [S], [C], the position and
    the slope. *)
Definition path_excess (K h a L S C x xp : R) : R :=
  let A := - K * x - a in
  let B := xp in
  - (h * ((C - 1) * xp + S * A + L * a)) / K
  + / 2 * (- (A * A * C * S) / (2 * K) + (B * B * C * S) / 2
           + (A * A * L) / (2 * K) + (B * B * L) / 2
           - (A * B * (C * C)) / K + (A * B) / K).

(** The end-to-end scenario 2 of the specification ([k1 = 0.05], hence
    [Ky = -0.05]: vertical defocusing), and the same magnet with the
    gradient reversed. *)
Definition scenario2_el : ThickCombinedFunctionDipoleData :=
  mkThickCombinedFunctionDipoleData 2.0 0.02 0.05 0.02.

Definition scenario2_reversed_el : ThickCombinedFunctionDipoleData :=
  mkThickCombinedFunctionDipoleData 2.0 0.02 (- 0.05) 0.02.

(** ** The same map over binary64 numbers

    A second transcription of lines 15-135, operation by operation, over
    the primitive binary64 floats: here rounding, infinities and NaN are
    those of the C [double].  [sqrt] is the correctly rounded square root;
    the four other functions of [<math.h>] are not in the source files
    and are parameters. *)

Module Binary64.

Import PrimFloat.
Local Open Scope float_scope.
#[local] Set Warnings "-inexact-float".

(** Modelled from the spec: the particle of the data model, with
    [double] fields. *)
Record LocalParticle : Type := mkLocalParticle {
  x : float;
  px : float;
  y : float;
  py : float;
  zeta : float;
  s : float;
  delta : float;
  ptau : float;
  beta0 : float;
  rvv : float;
  state : Z;
  at_turn : Z
}.

(** Modelled from the spec: the mutator setting [x]. *)
Definition LocalParticle_set_x (part : LocalParticle) (v : float)
  : LocalParticle :=
  mkLocalParticle v (px part) (y part) (py part) (zeta part) (s part)
    (delta part) (ptau part) (beta0 part) (rvv part)
    (state part) (at_turn part).

(** Modelled from the spec: the mutator setting [px]. *)
Definition LocalParticle_set_px (part : LocalParticle) (v : float)
  : LocalParticle :=
  mkLocalParticle (x part) v (y part) (py part) (zeta part) (s part)
    (delta part) (ptau part) (beta0 part) (rvv part)
    (state part) (at_turn part).

(** Modelled from the spec: the mutator setting [y]. *)
Definition LocalParticle_set_y (part : LocalParticle) (v : float)
  : LocalParticle :=
  mkLocalParticle (x part) (px part) v (py part) (zeta part) (s part)
    (delta part) (ptau part) (beta0 part) (rvv part)
    (state part) (at_turn part).

(** Modelled from the spec: the mutator setting [py]. *)
Definition LocalParticle_set_py (part : LocalParticle) (v : float)
  : LocalParticle :=
  mkLocalParticle (x part) (px part) (y part) v (zeta part) (s part)
    (delta part) (ptau part) (beta0 part) (rvv part)
    (state part) (at_turn part).

(** Modelled from the spec: the mutator incrementing [zeta]. *)
Definition LocalParticle_add_to_zeta (part : LocalParticle) (v : float)
  : LocalParticle :=
  mkLocalParticle (x part) (px part) (y part) (py part) (zeta part + v)
    (s part) (delta part) (ptau part) (beta0 part) (rvv part)
    (state part) (at_turn part).

(** Modelled from the spec: the mutator incrementing [s]. *)
Definition LocalParticle_add_to_s (part : LocalParticle) (v : float)
  : LocalParticle :=
  mkLocalParticle (x part) (px part) (y part) (py part) (zeta part)
    (s part + v) (delta part) (ptau part) (beta0 part) (rvv part)
    (state part) (at_turn part).

(** Modelled from the spec: the element parameters, with [double]
    fields. *)
Record ThickCombinedFunctionDipoleData : Type :=
  mkThickCombinedFunctionDipoleData {
  get_length : float;
  get_k0 : float;
  get_k1 : float;
  get_h : float
}.

(** [a > b] on doubles. *)
Definition gtb (a b : float) : bool := b <? a.

Infix ">?" := gtb (at level 70, no associativity) : float_scope.

(** [#define POW2(X) ((X)*(X))] *)
Definition POW2 (X : float) : float := X * X.

(** [#define NONZERO(X) ((X) < 0.0 || (X) > 0.0)] *)
Definition NONZERO (X : float) : bool := (X <? 0.0) || (X >? 0.0).

Section per_particle_block.

(** [sin], [cos], [sinh] and [cosh] of [<math.h>]. *)
Variables sin cos sinh cosh : float -> float.

Definition ThickCombinedFunctionDipole_track_local_particle
    (el : ThickCombinedFunctionDipoleData) (part : LocalParticle)
  : LocalParticle :=
  let length := get_length el in
  let k1_ := get_k1 el in
  let k0_ := get_k0 el in
  let h := get_h el in
  let beta0 := beta0 part in
  let x := x part in
  let y := y part in
  let px := px part in
  let py := py part in
  let pt := ptau part in
  let beti := 1.0 / (rvv part * beta0) in
  let delta_plus_1 := delta part + 1 in
  let bet := delta_plus_1 / (beti + pt) in
  let k0 := k0_ / delta_plus_1 in
  let k1 := k1_ / delta_plus_1 in
  let Kx := k0 * h + k1 in
  let Ky := - k1 in
  let SCx :=
    if Kx >? 0.0 then
      let sqrt_Kx := sqrt Kx in
      (sin (sqrt_Kx * length) / sqrt_Kx, cos (sqrt_Kx * length))
    else if Kx <? 0.0 then
      let sqrt_Kx := sqrt (- Kx) in
      (sinh (sqrt_Kx * length) / sqrt_Kx, cosh (sqrt_Kx * length))
    else
      (length, 1.0) in
  let Sx := fst SCx in
  let Cx := snd SCx in
  let SCy :=
    if Ky >? 0.0 then
      let sqrt_Ky := sqrt Ky in
      (sin (sqrt_Ky * length) / sqrt_Ky, cos (sqrt_Ky * length))
    else if Ky <? 0.0 then
      let sqrt_Ky := sqrt (- Ky) in
      (sinh (sqrt_Ky * length) / sqrt_Ky, cosh (sqrt_Ky * length))
    else
      (length, 1.0) in
  let Sy := fst SCy in
  let Cy := snd SCy in
  let xp := px / delta_plus_1 in
  let yp := py / delta_plus_1 in
  let A := - Kx * x - k0 + h in
  let B := xp in
  let C := - Ky * y in
  let D := yp in
  let x_ := x * Cx + xp * Sx in
  let y_ := y * Cy + yp * Sy in
  let px_ := (A * Sx + B * Cx) * delta_plus_1 in
  let py_ := (C * Sy + D * Cy) * delta_plus_1 in
  let x_ :=
    if NONZERO Kx
    then x_ + (k0 - h) * (Cx - 1.0) / Kx
    else x_ - (k0 - h) * 0.5 * POW2 length in
  let length_ := length in
  let length_ :=
    if NONZERO Kx then
      let length_ :=
        length_ - (h * ((Cx - 1.0) * xp + Sx * A + length * (k0 - h))) / Kx in
      length_ + 0.5 * (
          - (POW2 A * Cx * Sx) / (2.0 * Kx)
          + (POW2 B * Cx * Sx) / 2.0
          + (POW2 A * length) / (2.0 * Kx)
          + (POW2 B * length) / 2.0
          - (A * B * POW2 Cx) / Kx
          + (A * B) / Kx)
    else
      let length_ :=
        length_ + h * length * (
            3.0 * length * xp
            + 6.0 * x
            - (k0 - h) * POW2 length) / 6.0 in
      length_ + 0.5 * (POW2 B) * length in
  let length_ :=
    if NONZERO Ky then
      length_ + 0.5 * (
          - (POW2 C * Cy * Sy) / (2.0 * Ky)
          + (POW2 D * Cy * Sy) / 2.0
          + (POW2 C * length) / (2.0 * Ky)
          + (POW2 D * length) / 2.0
          - (C * D * POW2 Cy) / Ky
          + (C * D) / Ky)
    else
      length_ + 0.5 * POW2 D * length in
  let z_ := length * beti - length_ / bet in
  let part := LocalParticle_set_x part x_ in
  let part := LocalParticle_set_px part px_ in
  let part := LocalParticle_set_y part y_ in
  let part := LocalParticle_set_py part py_ in
  let part := LocalParticle_add_to_zeta part (z_ * beta0) in
  let part := LocalParticle_add_to_s part length in
  part.

End per_particle_block.

(** A [<math.h>] function that is never reached: the inputs below have
    [Kx = Ky = 0] and take the drift branches. *)
Definition unreached (_ : float) : float := nan.

(** The drift of unit length and a particle with [px = py = 1] and
    [delta = 48]. *)
Definition drift_el : ThickCombinedFunctionDipoleData :=
  mkThickCombinedFunctionDipoleData 1 0 0 0.

Definition heavy_particle : LocalParticle :=
  mkLocalParticle 0 1 0 1 0 0 48 48 1 1 1 0.

(** The element of length 0, and a particle whose [beta0] is 0. *)
Definition empty_el : ThickCombinedFunctionDipoleData :=
  mkThickCombinedFunctionDipoleData 0 0 0 0.

Definition still_particle : LocalParticle :=
  mkLocalParticle 0 0 0 0 0 0 0 0 0 1 1 0.

(** Stand-ins for [sin], [sinh] and for [cos], [cosh] that have the
    values of the library functions at the argument 0 (0 and 1), the
    only argument the map passes them when [length] is 0. *)
Definition odd_at_0 (t : float) : float := t.

Definition even_at_0 (_ : float) : float := 1.

(** The magnet of scenario 2 cut to length 0, an off-momentum particle,
    and the straight dipole of length 2. *)
Definition cut_el : ThickCombinedFunctionDipoleData :=
  mkThickCombinedFunctionDipoleData 0 0.02 0.05 0.02.

Definition sample_particle : LocalParticle :=
  mkLocalParticle 0.001 0.002 0.0005 0.003 7 11 0.1 0.1 1 1 1 0.

Definition straight_el : ThickCombinedFunctionDipoleData :=
  mkThickCombinedFunctionDipoleData 2 0.25 0 0.

End Binary64.

(** * Properties *)

(** ** Comparisons and [NONZERO] *)

Lemma Rltb_true (a b : R) : (a <? b) = true <-> a < b.
Proof.
  unfold Rltb. destruct (Rlt_dec a b) as [Hlt | Hnlt].
  - split; [intros _; exact Hlt | reflexivity].
  - split; [discriminate | intros Hlt; contradiction].
Qed.

Lemma Rltb_false (a b : R) : (a <? b) = false <-> b <= a.
Proof.
  unfold Rltb. destruct (Rlt_dec a b) as [Hlt | Hnlt].
  - split; [discriminate | intros Hle; lra].
  - split; [intros _; lra | reflexivity].
Qed.

Lemma Rgtb_true (a b : R) : (a >? b) = true <-> a > b.
Proof. unfold Rgtb. rewrite Rltb_true. unfold Rgt. tauto. Qed.

Lemma Rgtb_false (a b : R) : (a >? b) = false <-> a <= b.
Proof. unfold Rgtb. apply Rltb_false. Qed.

Lemma NONZERO_true (X : R) : NONZERO X = true <-> X <> 0.
Proof.
  unfold NONZERO. rewrite orb_true_iff, Rltb_true, Rgtb_true. lra.
Qed.

Lemma NONZERO_false (X : R) : NONZERO X = false <-> X = 0.
Proof.
  unfold NONZERO. rewrite orb_false_iff, Rltb_false, Rgtb_false. lra.
Qed.

Lemma NONZERO_0 : NONZERO 0 = false.
Proof. apply NONZERO_false. reflexivity. Qed.

(** ** The regimes of [S] and [C] *)

Lemma Sx_regime el part :
  CFD.Sx el part = regime_S (CFD.Kx el part) (CFD.length el).
Proof.
  unfold CFD.Sx, CFD.SCx, regime_S.
  destruct (CFD.Kx el part >? 0.0); [reflexivity |].
  destruct (CFD.Kx el part <? 0.0); reflexivity.
Qed.

Lemma Cx_regime el part :
  CFD.Cx el part = regime_C (CFD.Kx el part) (CFD.length el).
Proof.
  unfold CFD.Cx, CFD.SCx, regime_C.
  destruct (CFD.Kx el part >? 0.0); [reflexivity |].
  destruct (CFD.Kx el part <? 0.0); [reflexivity | simpl; lra].
Qed.

Lemma Sy_regime el part :
  CFD.Sy el part = regime_S (CFD.Ky el part) (CFD.length el).
Proof.
  unfold CFD.Sy, CFD.SCy, regime_S.
  destruct (CFD.Ky el part >? 0.0); [reflexivity |].
  destruct (CFD.Ky el part <? 0.0); reflexivity.
Qed.

Lemma Cy_regime el part :
  CFD.Cy el part = regime_C (CFD.Ky el part) (CFD.length el).
Proof.
  unfold CFD.Cy, CFD.SCy, regime_C.
  destruct (CFD.Ky el part >? 0.0); [reflexivity |].
  destruct (CFD.Ky el part <? 0.0); [reflexivity | simpl; lra].
Qed.

Lemma regime_S_pos K L : K > 0 -> regime_S K L = sin (sqrt K * L) / sqrt K.
Proof.
  intros HK. unfold regime_S.
  assert (E : (K >? 0.0) = true) by (apply Rgtb_true; lra).
  rewrite E. reflexivity.
Qed.

Lemma regime_S_neg K L :
  K < 0 -> regime_S K L = sinh (sqrt (- K) * L) / sqrt (- K).
Proof.
  intros HK. unfold regime_S.
  assert (E1 : (K >? 0.0) = false) by (apply Rgtb_false; lra).
  assert (E2 : (K <? 0.0) = true) by (apply Rltb_true; lra).
  rewrite E1, E2. reflexivity.
Qed.

Lemma regime_S_0 L : regime_S 0 L = L.
Proof.
  unfold regime_S.
  assert (E1 : (0 >? 0.0) = false) by (apply Rgtb_false; lra).
  assert (E2 : (0 <? 0.0) = false) by (apply Rltb_false; lra).
  rewrite E1, E2. reflexivity.
Qed.

Lemma regime_C_pos K L : K > 0 -> regime_C K L = cos (sqrt K * L).
Proof.
  intros HK. unfold regime_C.
  assert (E : (K >? 0.0) = true) by (apply Rgtb_true; lra).
  rewrite E. reflexivity.
Qed.

Lemma regime_C_neg K L : K < 0 -> regime_C K L = cosh (sqrt (- K) * L).
Proof.
  intros HK. unfold regime_C.
  assert (E1 : (K >? 0.0) = false) by (apply Rgtb_false; lra).
  assert (E2 : (K <? 0.0) = true) by (apply Rltb_true; lra).
  rewrite E1, E2. reflexivity.
Qed.

Lemma regime_C_0 L : regime_C 0 L = 1.
Proof.
  unfold regime_C.
  assert (E1 : (0 >? 0.0) = false) by (apply Rgtb_false; lra).
  assert (E2 : (0 <? 0.0) = false) by (apply Rltb_false; lra).
  rewrite E1, E2. reflexivity.
Qed.

(** ** The tracking-mode assertion *)

(** C8.  If [at_turn] is negative, [assert_tracking] kills the particle
    with the supplied code (its [state] becomes [kill_state]) and returns
    0; if [at_turn] is 0 or more, it returns 1 and the particle is the
    one it was given. *)
Theorem assert_tracking_contract (part : LocalParticle) (kill_state : Z) :
  ((LocalParticle_get_at_turn part < 0)%Z ->
   Checks.assert_tracking part kill_state
   = (LocalParticle_kill_particle part kill_state, 0%Z)
   /\ LocalParticle_get_state (fst (Checks.assert_tracking part kill_state))
      = kill_state)
  /\
  ((0 <= LocalParticle_get_at_turn part)%Z ->
   Checks.assert_tracking part kill_state = (part, 1%Z)).
Proof.
  unfold Checks.assert_tracking. split; intros Hturn.
  - apply Z.ltb_lt in Hturn. rewrite Hturn. split; reflexivity.
  - apply Z.ltb_ge in Hturn. rewrite Hturn. reflexivity.
Qed.

(** The guard scenario of the specification: [at_turn = -1] with kill
    code [-30], then [at_turn = 5], and the boundary [at_turn = 0]. *)
Lemma assert_tracking_contract_witness :
  Checks.assert_tracking
    (mkLocalParticle 0 0 0 0 0 0 0 0 1 1 1 (-1)) (-30)
  = (mkLocalParticle 0 0 0 0 0 0 0 0 1 1 (-30) (-1), 0%Z)
  /\
  Checks.assert_tracking
    (mkLocalParticle 0 0 0 0 0 0 0 0 1 1 1 5) (-30)
  = (mkLocalParticle 0 0 0 0 0 0 0 0 1 1 1 5, 1%Z)
  /\
  Checks.assert_tracking
    (mkLocalParticle 0 0 0 0 0 0 0 0 1 1 1 0) (-30)
  = (mkLocalParticle 0 0 0 0 0 0 0 0 1 1 1 0, 1%Z).
Proof.
  split; [| split].
  - apply (proj1 (assert_tracking_contract
                    (mkLocalParticle 0 0 0 0 0 0 0 0 1 1 1 (-1)) (-30))).
    simpl. lia.
  - apply (proj2 (assert_tracking_contract
                    (mkLocalParticle 0 0 0 0 0 0 0 0 1 1 1 5) (-30))).
    simpl. lia.
  - apply (proj2 (assert_tracking_contract
                    (mkLocalParticle 0 0 0 0 0 0 0 0 1 1 1 0) (-30))).
    simpl. lia.
Defined.

(** The bulk kill marks every particle of the batch with the code, and
    applying it again changes nothing. *)
Lemma kill_all_particles_state (part0 : list LocalParticle) (kill_state : Z) :
  Forall (fun part => LocalParticle_get_state part = kill_state)
         (Checks.kill_all_particles part0 kill_state).
Proof.
  induction part0 as [| part rest IH]; simpl.
  - constructor.
  - constructor; [reflexivity | exact IH].
Qed.

Lemma kill_all_particles_idempotent (part0 : list LocalParticle)
    (kill_state : Z) :
  Checks.kill_all_particles (Checks.kill_all_particles part0 kill_state)
                            kill_state
  = Checks.kill_all_particles part0 kill_state.
Proof.
  induction part0 as [| part rest IH]; simpl.
  - reflexivity.
  - rewrite IH. reflexivity.
Qed.

(** ** Frame condition of the transport map *)

Lemma track_fields (el : ThickCombinedFunctionDipoleData)
    (part : LocalParticle) :
  track el part
  = mkLocalParticle
      (CFD.x_ el part) (CFD.px_ el part) (CFD.y_ el part) (CFD.py_ el part)
      (p_zeta part + CFD.z_ el part * CFD.beta0 part)
      (p_s part + CFD.length el)
      (p_delta part) (p_ptau part) (p_beta0 part) (p_rvv part)
      (p_state part) (p_at_turn part).
Proof. reflexivity. Qed.

(** C6.  One call of the map sets [x], [px], [y], [py], adds to [zeta]
    and to [s], and leaves [delta], [ptau], [beta0], [rvv], [state] and
    [at_turn] as they were. *)
Theorem track_frame (el : ThickCombinedFunctionDipoleData)
    (part : LocalParticle) :
  track el part
  = mkLocalParticle
      (CFD.x_ el part) (CFD.px_ el part) (CFD.y_ el part) (CFD.py_ el part)
      (LocalParticle_get_zeta part + CFD.z_ el part * CFD.beta0 part)
      (LocalParticle_get_s part + CFD.length el)
      (LocalParticle_get_delta part) (LocalParticle_get_ptau part)
      (LocalParticle_get_beta0 part) (LocalParticle_get_rvv part)
      (LocalParticle_get_state part) (LocalParticle_get_at_turn part)
  /\ LocalParticle_get_state (track el part) = LocalParticle_get_state part
  /\ LocalParticle_get_at_turn (track el part)
     = LocalParticle_get_at_turn part
  /\ LocalParticle_get_delta (track el part) = LocalParticle_get_delta part
  /\ LocalParticle_get_ptau (track el part) = LocalParticle_get_ptau part
  /\ LocalParticle_get_beta0 (track el part) = LocalParticle_get_beta0 part
  /\ LocalParticle_get_rvv (track el part) = LocalParticle_get_rvv part.
Proof.
  repeat split.
Qed.

(** ** The relativistic factor [bet] *)


(** C4, as stated, fails: [pt] is read from [ptau], and for the particle
    above [bet] is [25/23], not [(delta + 1) / (beti + delta) = 75/79]. *)
Lemma bet_not_from_delta :
  CFD.bet off_momentum_particle
  <> (LocalParticle_get_delta off_momentum_particle + 1)
     / (CFD.beti off_momentum_particle
        + LocalParticle_get_delta off_momentum_particle).
Proof.
  unfold CFD.bet, CFD.beti, CFD.delta_plus_1, CFD.pt, CFD.beta0. simpl.
  intros Heq.
  assert (E1 : (3 / 2 + 1) / (1.0 / (25 / 17 * (3 / 5)) + 7 / 6) = 25 / 23)
    by lra.
  assert (E2 : (3 / 2 + 1) / (1.0 / (25 / 17 * (3 / 5)) + 3 / 2) = 75 / 79)
    by lra.
  rewrite E1, E2 in Heq. lra.
Qed.

(** C4, amended.  [bet] is [delta_plus_1 / (beti + pt)] with
    [beti = 1 / (rvv * beta0)], [delta_plus_1 = delta + 1] and [pt] the
    [ptau] field of the particle, which is read independently of
    [delta]. *)
Theorem bet_from_ptau (part : LocalParticle) :
  CFD.bet part
  = (LocalParticle_get_delta part + 1)
    / (1 / (LocalParticle_get_rvv part * LocalParticle_get_beta0 part)
       + LocalParticle_get_ptau part)
  /\ CFD.beti part
     = 1 / (LocalParticle_get_rvv part * LocalParticle_get_beta0 part)
  /\ CFD.delta_plus_1 part = LocalParticle_get_delta part + 1
  /\ CFD.pt part = LocalParticle_get_ptau part
  /\ CFD.bet part = CFD.delta_plus_1 part / (CFD.beti part + CFD.pt part).
Proof.
  unfold CFD.bet, CFD.beti, CFD.delta_plus_1, CFD.pt, CFD.beta0.
  repeat split; f_equal; f_equal; lra.
Qed.

(** ** The formulas of the transverse and longitudinal maps *)


Lemma dec_0 : 0.0 = 0. Proof. lra. Qed.
Lemma dec_1 : 1.0 = 1. Proof. lra. Qed.
Lemma dec_2 : 2.0 = 2. Proof. lra. Qed.
Lemma dec_3 : 3.0 = 3. Proof. lra. Qed.
Lemma dec_6 : 6.0 = 6. Proof. lra. Qed.
Lemma dec_half : 0.5 = / 2. Proof. lra. Qed.

Ltac dec_norm :=
  rewrite ?dec_0, ?dec_1, ?dec_2, ?dec_3, ?dec_6, ?dec_half in *.

Lemma x_nonzero el part :
  CFD.Kx el part <> 0 ->
  CFD.x_ el part
  = CFD.x_0 el part
    + (CFD.k0 el part - CFD.h el) * (CFD.Cx el part - 1) / CFD.Kx el part.
Proof.
  intros HK. unfold CFD.x_.
  apply NONZERO_true in HK. rewrite HK. dec_norm. reflexivity.
Qed.

Lemma x_zero el part :
  CFD.Kx el part = 0 ->
  CFD.x_ el part
  = CFD.x_0 el part
    - (CFD.k0 el part - CFD.h el) * / 2 * (CFD.length el * CFD.length el).
Proof.
  intros HK. unfold CFD.x_.
  apply NONZERO_false in HK. rewrite HK. dec_norm. reflexivity.
Qed.

(** C1.  The strengths are scaled by [delta_plus_1], [Kx] and [Ky] are
    formed from them, each axis takes the sine, hyperbolic or drift
    regime by the sign of its constant, and the new transverse
    coordinates are the stated combinations.  (The equations hold for
    every input; [delta_plus_1 <> 0] is not needed for them.) *)
Theorem transverse_map_formulas (el : ThickCombinedFunctionDipoleData)
    (part : LocalParticle) :
  let length := el_length el in
  let h := el_h el in
  let x := p_x part in
  let px := p_px part in
  let y := p_y part in
  let py := p_py part in
  let delta_plus_1 := p_delta part + 1 in
  let k0_eff := el_k0 el / delta_plus_1 in
  let k1_eff := el_k1 el / delta_plus_1 in
  let Kx := k0_eff * h + k1_eff in
  let Ky := - k1_eff in
  let Sx := CFD.Sx el part in
  let Cx := CFD.Cx el part in
  let Sy := CFD.Sy el part in
  let Cy := CFD.Cy el part in
  let A := - Kx * x - k0_eff + h in
  let B := px / delta_plus_1 in
  let C_ := - Ky * y in
  let D := py / delta_plus_1 in
  let part' := track el part in
  (CFD.k0 el part = k0_eff /\ CFD.k1 el part = k1_eff
   /\ CFD.Kx el part = Kx /\ CFD.Ky el part = Ky)
  /\ (Kx > 0 ->
      Sx = sin (sqrt Kx * length) / sqrt Kx /\ Cx = cos (sqrt Kx * length))
  /\ (Kx < 0 ->
      Sx = sinh (sqrt (- Kx) * length) / sqrt (- Kx)
      /\ Cx = cosh (sqrt (- Kx) * length))
  /\ (Kx = 0 -> Sx = length /\ Cx = 1)
  /\ (Ky > 0 ->
      Sy = sin (sqrt Ky * length) / sqrt Ky /\ Cy = cos (sqrt Ky * length))
  /\ (Ky < 0 ->
      Sy = sinh (sqrt (- Ky) * length) / sqrt (- Ky)
      /\ Cy = cosh (sqrt (- Ky) * length))
  /\ (Ky = 0 -> Sy = length /\ Cy = 1)
  /\ (Kx <> 0 ->
      p_x part' = x * Cx + (px / delta_plus_1) * Sx
                  + (k0_eff - h) * (Cx - 1) / Kx)
  /\ (Kx = 0 ->
      p_x part' = x * Cx + (px / delta_plus_1) * Sx
                  - (k0_eff - h) * length ^ 2 / 2)
  /\ p_y part' = y * Cy + (py / delta_plus_1) * Sy
  /\ p_px part' = (A * Sx + B * Cx) * delta_plus_1
  /\ p_py part' = (C_ * Sy + D * Cy) * delta_plus_1.
Proof.
  intros length h x px y py delta_plus_1 k0_eff k1_eff Kx Ky
         Sx Cx Sy Cy A B C_ D part'.
  assert (EKx : CFD.Kx el part = Kx) by reflexivity.
  assert (EKy : CFD.Ky el part = Ky) by reflexivity.
  assert (EL : CFD.length el = length) by reflexivity.
  split; [repeat split |].
  unfold Sx, Cx, Sy, Cy.
  rewrite Sx_regime, Cx_regime, Sy_regime, Cy_regime, EKx, EKy, EL.
  split; [intros HK; split;
          [apply regime_S_pos; exact HK | apply regime_C_pos; exact HK] |].
  split; [intros HK; split;
          [apply regime_S_neg; exact HK | apply regime_C_neg; exact HK] |].
  split; [intros HK; rewrite HK; split;
          [apply regime_S_0 | apply regime_C_0] |].
  split; [intros HK; split;
          [apply regime_S_pos; exact HK | apply regime_C_pos; exact HK] |].
  split; [intros HK; split;
          [apply regime_S_neg; exact HK | apply regime_C_neg; exact HK] |].
  split; [intros HK; rewrite HK; split;
          [apply regime_S_0 | apply regime_C_0] |].
  rewrite <- EKx, <- EKy, <- EL, <- Sx_regime, <- Cx_regime,
    <- Sy_regime, <- Cy_regime.
  split.
  { intros HK. change (p_x part') with (CFD.x_ el part).
    rewrite (x_nonzero el part HK). reflexivity. }
  split.
  { intros HK. change (p_x part') with (CFD.x_ el part).
    rewrite (x_zero el part HK). unfold CFD.x_0.
    change (CFD.x part) with x. change (CFD.xp part) with (px / delta_plus_1).
    change (CFD.k0 el part) with k0_eff. change (CFD.h el) with h.
    rewrite EL. lra. }
  repeat split.
Qed.


Lemma transverse_map_formulas_witness :
  (CFD.Sx scenario1_el scenario1_part
   = sin (sqrt (0.02 / (0.0 + 1) * 0.02 + 0.0 / (0.0 + 1)) * 2.0)
     / sqrt (0.02 / (0.0 + 1) * 0.02 + 0.0 / (0.0 + 1))
   /\ CFD.Cx scenario1_el scenario1_part
      = cos (sqrt (0.02 / (0.0 + 1) * 0.02 + 0.0 / (0.0 + 1)) * 2.0))
  /\ (CFD.Sy scenario1_el scenario1_part = 2.0
      /\ CFD.Cy scenario1_el scenario1_part = 1).
Proof.
  destruct (transverse_map_formulas scenario1_el scenario1_part)
    as (_ & Hpos & _ & _ & _ & _ & Hy0 & _).
  split.
  - apply Hpos. simpl. lra.
  - apply Hy0. simpl. lra.
Defined.

Lemma length_h_nonzero el part :
  CFD.Kx el part <> 0 ->
  CFD.length_h el part
  = CFD.length el
    - (CFD.h el * ((CFD.Cx el part - 1) * CFD.xp part
                   + CFD.Sx el part * CFD.A el part
                   + CFD.length el * (CFD.k0 el part - CFD.h el)))
      / CFD.Kx el part
    + / 2 * (- (POW2 (CFD.A el part) * CFD.Cx el part * CFD.Sx el part)
               / (2 * CFD.Kx el part)
             + (POW2 (CFD.B part) * CFD.Cx el part * CFD.Sx el part) / 2
             + (POW2 (CFD.A el part) * CFD.length el) / (2 * CFD.Kx el part)
             + (POW2 (CFD.B part) * CFD.length el) / 2
             - (CFD.A el part * CFD.B part * POW2 (CFD.Cx el part))
               / CFD.Kx el part
             + (CFD.A el part * CFD.B part) / CFD.Kx el part).
Proof.
  intros HK. unfold CFD.length_h.
  apply NONZERO_true in HK. rewrite HK. dec_norm. reflexivity.
Qed.

Lemma length_h_zero el part :
  CFD.Kx el part = 0 ->
  CFD.length_h el part
  = CFD.length el
    + CFD.h el * CFD.length el
      * (3 * CFD.length el * CFD.xp part + 6 * CFD.x part
         - (CFD.k0 el part - CFD.h el) * POW2 (CFD.length el)) / 6
    + / 2 * POW2 (CFD.B part) * CFD.length el.
Proof.
  intros HK. unfold CFD.length_h.
  apply NONZERO_false in HK. rewrite HK. dec_norm. reflexivity.
Qed.

Lemma length_v_nonzero el part :
  CFD.Ky el part <> 0 ->
  CFD.length_ el part
  = CFD.length_h el part
    + / 2 * (- (POW2 (CFD.C el part) * CFD.Cy el part * CFD.Sy el part)
               / (2 * CFD.Ky el part)
             + (POW2 (CFD.D part) * CFD.Cy el part * CFD.Sy el part) / 2
             + (POW2 (CFD.C el part) * CFD.length el) / (2 * CFD.Ky el part)
             + (POW2 (CFD.D part) * CFD.length el) / 2
             - (CFD.C el part * CFD.D part * POW2 (CFD.Cy el part))
               / CFD.Ky el part
             + (CFD.C el part * CFD.D part) / CFD.Ky el part).
Proof.
  intros HK. unfold CFD.length_.
  apply NONZERO_true in HK. rewrite HK. dec_norm. reflexivity.
Qed.

Lemma length_v_zero el part :
  CFD.Ky el part = 0 ->
  CFD.length_ el part
  = CFD.length_h el part + / 2 * POW2 (CFD.D part) * CFD.length el.
Proof.
  intros HK. unfold CFD.length_.
  apply NONZERO_false in HK. rewrite HK. dec_norm. reflexivity.
Qed.

(** C2.  [z_ = length * beti - length_ / bet], where [length_] is
    [length] plus the horizontal curvature term, the horizontal cross
    term and the vertical cross term, each with its zero-strength branch;
    [zeta] grows by [z_ * beta0] and [s] by the design [length]. *)
Theorem longitudinal_map_formulas (el : ThickCombinedFunctionDipoleData)
    (part : LocalParticle) :
  let length := el_length el in
  let h := el_h el in
  let x := p_x part in
  let y := p_y part in
  let delta_plus_1 := p_delta part + 1 in
  let k0_eff := el_k0 el / delta_plus_1 in
  let k1_eff := el_k1 el / delta_plus_1 in
  let Kx := k0_eff * h + k1_eff in
  let Ky := - k1_eff in
  let Sx := CFD.Sx el part in
  let Cx := CFD.Cx el part in
  let Sy := CFD.Sy el part in
  let Cy := CFD.Cy el part in
  let xp := p_px part / delta_plus_1 in
  let A := - Kx * x - k0_eff + h in
  let B := xp in
  let C_ := - Ky * y in
  let D := p_py part / delta_plus_1 in
  let length_ :=
    length
    + spec_curvature_term Kx k0_eff h x xp A Sx Cx length
    + spec_cross_term Kx A B Sx Cx length
    + spec_cross_term Ky C_ D Sy Cy length in
  let z_ := length * CFD.beti part - length_ / CFD.bet part in
  let part' := track el part in
  CFD.length_ el part = length_
  /\ CFD.z_ el part = z_
  /\ p_zeta part' = p_zeta part + z_ * p_beta0 part
  /\ p_s part' = p_s part + length.
Proof.
  intros length h x y delta_plus_1 k0_eff k1_eff Kx Ky Sx Cx Sy Cy
         xp A B C_ D length_ z_ part'.
  assert (EL : CFD.length_ el part = length_).
  { unfold length_, spec_curvature_term, spec_cross_term.
    destruct (Req_dec_T Kx 0) as [HKx | HKx];
      destruct (Req_dec_T Ky 0) as [HKy | HKy].
    - rewrite (length_v_zero el part HKy), (length_h_zero el part HKx).
      unfold POW2. dec_norm.
      change (CFD.length el) with length. change (CFD.h el) with h.
      change (CFD.xp part) with xp. change (CFD.x part) with x.
      change (CFD.k0 el part) with k0_eff. change (CFD.B part) with B.
      change (CFD.D part) with D. lra.
    - rewrite (length_v_nonzero el part HKy), (length_h_zero el part HKx).
      unfold POW2. dec_norm.
      change (CFD.length el) with length. change (CFD.h el) with h.
      change (CFD.xp part) with xp. change (CFD.x part) with x.
      change (CFD.k0 el part) with k0_eff. change (CFD.B part) with B.
      change (CFD.D part) with D. change (CFD.C el part) with C_.
      change (CFD.Ky el part) with Ky.
      change (CFD.Sy el part) with Sy. change (CFD.Cy el part) with Cy.
      field. exact HKy.
    - rewrite (length_v_zero el part HKy), (length_h_nonzero el part HKx).
      unfold POW2. dec_norm.
      change (CFD.length el) with length. change (CFD.h el) with h.
      change (CFD.xp part) with xp. change (CFD.x part) with x.
      change (CFD.k0 el part) with k0_eff. change (CFD.B part) with B.
      change (CFD.D part) with D. change (CFD.A el part) with A.
      change (CFD.Kx el part) with Kx.
      change (CFD.Sx el part) with Sx. change (CFD.Cx el part) with Cx.
      field. exact HKx.
    - rewrite (length_v_nonzero el part HKy), (length_h_nonzero el part HKx).
      unfold POW2. dec_norm.
      change (CFD.length el) with length. change (CFD.h el) with h.
      change (CFD.xp part) with xp. change (CFD.x part) with x.
      change (CFD.k0 el part) with k0_eff. change (CFD.B part) with B.
      change (CFD.D part) with D. change (CFD.A el part) with A.
      change (CFD.C el part) with C_.
      change (CFD.Kx el part) with Kx. change (CFD.Ky el part) with Ky.
      change (CFD.Sx el part) with Sx. change (CFD.Cx el part) with Cx.
      change (CFD.Sy el part) with Sy. change (CFD.Cy el part) with Cy.
      field. split; assumption. }
  assert (EZ : CFD.z_ el part = z_).
  { unfold CFD.z_, z_. rewrite EL. reflexivity. }
  split; [exact EL |]. split; [exact EZ |].
  split; [| reflexivity].
  change (p_zeta part') with (p_zeta part + CFD.z_ el part * CFD.beta0 part).
  rewrite EZ. reflexivity.
Qed.

(** ** Drift limit, zero length, decoupling of the planes *)

Lemma Rdiv_0_l' (r : R) : 0 / r = 0.
Proof. unfold Rdiv. apply Rmult_0_l. Qed.

(** C5, amended.  With [k0 = k1 = h = 0] and [delta_plus_1 <> 0] both
    constants are 0, both planes take the drift branch, and the map
    computes [x + xp * length], [y + yp * length], [xp * delta_plus_1],
    [yp * delta_plus_1] and the path length
    [length + 0.5 * (xp * xp) * length + 0.5 * (yp * yp) * length], with
    [xp = px / delta_plus_1] and [yp = py / delta_plus_1].  (The new
    momenta are the products as the code forms them; they are [px] and
    [py] in exact arithmetic only.) *)
Theorem drift_limit_formulas (length : R) (part : LocalParticle) :
  LocalParticle_get_delta part + 1 <> 0 ->
  let el := mkThickCombinedFunctionDipoleData length 0 0 0 in
  let delta_plus_1 := LocalParticle_get_delta part + 1 in
  let xp := LocalParticle_get_px part / delta_plus_1 in
  let yp := LocalParticle_get_py part / delta_plus_1 in
  let part' := track el part in
  CFD.Kx el part = 0
  /\ CFD.Ky el part = 0
  /\ (CFD.Sx el part = length /\ CFD.Cx el part = 1)
  /\ (CFD.Sy el part = length /\ CFD.Cy el part = 1)
  /\ LocalParticle_get_x part' = LocalParticle_get_x part + xp * length
  /\ LocalParticle_get_y part' = LocalParticle_get_y part + yp * length
  /\ LocalParticle_get_px part' = xp * delta_plus_1
  /\ LocalParticle_get_py part' = yp * delta_plus_1
  /\ CFD.length_ el part
     = length + 0.5 * (xp * xp) * length + 0.5 * (yp * yp) * length.
Proof.
  intros Hdp el delta_plus_1 xp yp part'.
  assert (Ek0 : CFD.k0 el part = 0) by apply Rdiv_0_l'.
  assert (Ek1 : CFD.k1 el part = 0) by apply Rdiv_0_l'.
  assert (Eh : CFD.h el = 0) by reflexivity.
  assert (EKx : CFD.Kx el part = 0).
  { unfold CFD.Kx. rewrite Ek0, Ek1. lra. }
  assert (EKy : CFD.Ky el part = 0).
  { unfold CFD.Ky. rewrite Ek1. lra. }
  assert (ESx : CFD.Sx el part = length).
  { rewrite Sx_regime, EKx. apply regime_S_0. }
  assert (ECx : CFD.Cx el part = 1).
  { rewrite Cx_regime, EKx. apply regime_C_0. }
  assert (ESy : CFD.Sy el part = length).
  { rewrite Sy_regime, EKy. apply regime_S_0. }
  assert (ECy : CFD.Cy el part = 1).
  { rewrite Cy_regime, EKy. apply regime_C_0. }
  assert (EA : CFD.A el part = 0).
  { unfold CFD.A. rewrite EKx, Ek0, Eh. lra. }
  assert (EC : CFD.C el part = 0).
  { unfold CFD.C. rewrite EKy. lra. }
  assert (Exp : CFD.xp part = xp) by reflexivity.
  assert (Eyp : CFD.yp part = yp) by reflexivity.
  split; [exact EKx |]. split; [exact EKy |].
  split; [split; [exact ESx | exact ECx] |].
  split; [split; [exact ESy | exact ECy] |].
  split.
  { change (LocalParticle_get_x part') with (CFD.x_ el part).
    rewrite (x_zero el part EKx). unfold CFD.x_0.
    rewrite ECx, ESx, Ek0, Eh, Exp. unfold CFD.x. lra. }
  split.
  { change (LocalParticle_get_y part') with (CFD.y_ el part). unfold CFD.y_.
    rewrite ECy, ESy, Eyp. unfold CFD.y. lra. }
  split.
  { change (LocalParticle_get_px part') with (CFD.px_ el part).
    unfold CFD.px_. rewrite EA, ESx, ECx. unfold CFD.B. rewrite Exp.
    change (CFD.delta_plus_1 part) with delta_plus_1. ring. }
  split.
  { change (LocalParticle_get_py part') with (CFD.py_ el part).
    unfold CFD.py_. rewrite EC, ESy, ECy. unfold CFD.D. rewrite Eyp.
    change (CFD.delta_plus_1 part) with delta_plus_1. ring. }
  rewrite (length_v_zero el part EKy), (length_h_zero el part EKx).
  unfold CFD.B, CFD.D, POW2. rewrite Eh, Exp, Eyp.
  change (CFD.length el) with length. dec_norm. lra.
Qed.

Lemma drift_limit_formulas_witness :
  let part := mkLocalParticle 0 1 0 1 0 0 48 48 1 1 1 0 in
  let part' := track (mkThickCombinedFunctionDipoleData 1 0 0 0) part in
  LocalParticle_get_x part' = 0 + 1 / (48 + 1) * 1
  /\ LocalParticle_get_px part' = 1 / (48 + 1) * (48 + 1).
Proof.
  destruct (drift_limit_formulas 1
              (mkLocalParticle 0 1 0 1 0 0 48 48 1 1 1 0))
    as (_ & _ & _ & _ & Hx & _ & Hpx & _).
  - simpl. lra.
  - split; [exact Hx | exact Hpx].
Defined.





(** C10.  The new horizontal coordinates are a function of the element,
    [x], [px] and [delta] only, and the new vertical coordinates of the
    element, [y], [py] and [delta] only: two particles that agree on
    these get the same values, whatever their other fields are (a
    fortiori when they also agree on [ptau], [beta0] and [rvv]). *)
Theorem transverse_decoupling (el : ThickCombinedFunctionDipoleData)
    (part1 part2 : LocalParticle) :
  LocalParticle_get_delta part1 = LocalParticle_get_delta part2 ->
  (LocalParticle_get_x part1 = LocalParticle_get_x part2 ->
   LocalParticle_get_px part1 = LocalParticle_get_px part2 ->
   LocalParticle_get_x (track el part1) = LocalParticle_get_x (track el part2)
   /\ LocalParticle_get_px (track el part1)
      = LocalParticle_get_px (track el part2))
  /\
  (LocalParticle_get_y part1 = LocalParticle_get_y part2 ->
   LocalParticle_get_py part1 = LocalParticle_get_py part2 ->
   LocalParticle_get_y (track el part1) = LocalParticle_get_y (track el part2)
   /\ LocalParticle_get_py (track el part1)
      = LocalParticle_get_py (track el part2)).
Proof.
  destruct part1 as [x1 px1 y1 py1 zeta1 s1 delta1 ptau1 b1 r1 st1 t1].
  destruct part2 as [x2 px2 y2 py2 zeta2 s2 delta2 ptau2 b2 r2 st2 t2].
  unfold LocalParticle_get_delta, LocalParticle_get_x, LocalParticle_get_px,
    LocalParticle_get_y, LocalParticle_get_py. simpl.
  intros Hdelta. subst delta2.
  split.
  - intros Hx Hpx. subst x2 px2. split; reflexivity.
  - intros Hy Hpy. subst y2 py2. split; reflexivity.
Qed.

Lemma transverse_decoupling_witness :
  let el := mkThickCombinedFunctionDipoleData 2 0.02 0.05 0.02 in
  let part1 := mkLocalParticle 0.001 0.002 5 6 0 0 0.1 0.1 1 1 1 0 in
  let part2 := mkLocalParticle 0.001 0.002 (-3) 8 1 2 0.1 0.3 0.5 2 0 7 in
  let part3 := mkLocalParticle 4 (-1) 5 6 1 2 0.1 0.3 0.5 2 0 7 in
  (LocalParticle_get_x (track el part1) = LocalParticle_get_x (track el part2)
   /\ LocalParticle_get_px (track el part1)
      = LocalParticle_get_px (track el part2))
  /\
  (LocalParticle_get_y (track el part1) = LocalParticle_get_y (track el part3)
   /\ LocalParticle_get_py (track el part1)
      = LocalParticle_get_py (track el part3)).
Proof.
  intros el part1 part2 part3. split.
  - apply (proj1 (transverse_decoupling el part1 part2 eq_refl));
      reflexivity.
  - apply (proj2 (transverse_decoupling el part1 part3 eq_refl));
      reflexivity.
Defined.

(** ** No division by a zero focusing constant *)

Lemma track_traced_value el part :
  fst (Traced.track_traced el part) = track el part.
Proof.
  unfold Traced.track_traced.
  cbn [Traced.bind Traced.div Traced.ret fst snd].
  change (ThickCombinedFunctionDipoleData_get_k0 el /
                           (LocalParticle_get_delta part + 1) *
                           ThickCombinedFunctionDipoleData_get_h el +
                           ThickCombinedFunctionDipoleData_get_k1 el /
                           (LocalParticle_get_delta part + 1)) with (CFD.Kx el part).
  change (- (ThickCombinedFunctionDipoleData_get_k1 el /
                           (LocalParticle_get_delta part + 1))) with (CFD.Ky el part).
  unfold CFD.ThickCombinedFunctionDipole_track_local_particle.
  unfold CFD.x_, CFD.px_, CFD.y_, CFD.py_, CFD.z_, CFD.length_, CFD.length_h, CFD.x_0,
    CFD.Sx, CFD.Cx, CFD.Sy, CFD.Cy, CFD.SCx, CFD.SCy.
  destruct (NONZERO (CFD.Kx el part)); destruct (NONZERO (CFD.Ky el part));
  destruct (CFD.Kx el part >? 0.0); destruct (CFD.Kx el part <? 0.0);
  destruct (CFD.Ky el part >? 0.0); destruct (CFD.Ky el part <? 0.0);
  reflexivity.
Qed.

Lemma safe_event_other Kx Ky (d : Traced.divisor) (v : R) :
  match d with
  | Traced.by_Kx | Traced.by_2Kx | Traced.by_Ky | Traced.by_2Ky => False
  | _ => True
  end ->
  Traced.safe_event Kx Ky (d, v).
Proof.
  unfold Traced.safe_event. destruct d; simpl; tauto.
Qed.

Lemma safe_event_Kx Kx Ky :
  NONZERO Kx = true -> Traced.safe_event Kx Ky (Traced.by_Kx, Kx).
Proof.
  intros HK. unfold Traced.safe_event. simpl.
  repeat split; [exact HK | apply NONZERO_true; exact HK].
Qed.

Lemma safe_event_2Kx Kx Ky :
  NONZERO Kx = true -> Traced.safe_event Kx Ky (Traced.by_2Kx, 2.0 * Kx).
Proof.
  intros HK. unfold Traced.safe_event. simpl.
  pose proof (proj1 (NONZERO_true Kx) HK) as Hne.
  repeat split; [lra | exact HK | lra].
Qed.

Lemma safe_event_Ky Kx Ky :
  NONZERO Ky = true -> Traced.safe_event Kx Ky (Traced.by_Ky, Ky).
Proof.
  intros HK. unfold Traced.safe_event. simpl.
  repeat split; [exact HK | apply NONZERO_true; exact HK].
Qed.

Lemma safe_event_2Ky Kx Ky :
  NONZERO Ky = true -> Traced.safe_event Kx Ky (Traced.by_2Ky, 2.0 * Ky).
Proof.
  intros HK. unfold Traced.safe_event. simpl.
  pose proof (proj1 (NONZERO_true Ky) HK) as Hne.
  repeat split; [lra | exact HK | lra].
Qed.

Ltac safe_events :=
  repeat (apply Forall_cons;
          [first [ apply safe_event_Kx; assumption
                 | apply safe_event_2Kx; assumption
                 | apply safe_event_Ky; assumption
                 | apply safe_event_2Ky; assumption
                 | apply safe_event_other; exact I ] |]);
  apply Forall_nil.

Lemma track_traced_safe el part :
  Forall (Traced.safe_event (CFD.Kx el part) (CFD.Ky el part))
         (snd (Traced.track_traced el part)).
Proof.
  unfold Traced.track_traced.
  cbn [Traced.bind Traced.div Traced.ret fst snd].
  change (ThickCombinedFunctionDipoleData_get_k0 el
          / (LocalParticle_get_delta part + 1)
          * ThickCombinedFunctionDipoleData_get_h el
          + ThickCombinedFunctionDipoleData_get_k1 el
            / (LocalParticle_get_delta part + 1))
    with (CFD.Kx el part).
  change (- (ThickCombinedFunctionDipoleData_get_k1 el
             / (LocalParticle_get_delta part + 1)))
    with (CFD.Ky el part).
  destruct (NONZERO (CFD.Kx el part)) eqn:HKx;
    destruct (NONZERO (CFD.Ky el part)) eqn:HKy;
    destruct (CFD.Kx el part >? 0.0); destruct (CFD.Kx el part <? 0.0);
    destruct (CFD.Ky el part >? 0.0); destruct (CFD.Ky el part <? 0.0);
    cbn [Traced.bind Traced.div Traced.ret fst snd app];
    safe_events.
Qed.

(** When [Kx] is not zero the map does divide by it (the statement above
    is not about an empty trace). *)
Lemma track_traced_divides_by_Kx el part :
  NONZERO (CFD.Kx el part) = true ->
  In (Traced.by_Kx, CFD.Kx el part) (snd (Traced.track_traced el part)).
Proof.
  intros HKx.
  unfold Traced.track_traced.
  cbn [Traced.bind Traced.div Traced.ret fst snd].
  change (ThickCombinedFunctionDipoleData_get_k0 el
          / (LocalParticle_get_delta part + 1)
          * ThickCombinedFunctionDipoleData_get_h el
          + ThickCombinedFunctionDipoleData_get_k1 el
            / (LocalParticle_get_delta part + 1))
    with (CFD.Kx el part).
  change (- (ThickCombinedFunctionDipoleData_get_k1 el
             / (LocalParticle_get_delta part + 1)))
    with (CFD.Ky el part).
  rewrite HKx.
  destruct (NONZERO (CFD.Ky el part));
    destruct (CFD.Kx el part >? 0.0); destruct (CFD.Kx el part <? 0.0);
    destruct (CFD.Ky el part >? 0.0); destruct (CFD.Ky el part <? 0.0);
    cbn [Traced.bind Traced.div Traced.ret fst snd app In];
    repeat (first [left; reflexivity | right]).
Qed.

(** C7.  [NONZERO] is the pair of strict comparisons and holds exactly
    for the reals other than 0; the traced map computes the particle of
    the map; and every division it performs by [Kx], [2.0 * Kx], [Ky] or
    [2.0 * Ky] is performed under [NONZERO] of that constant, so its
    divisor is not 0. *)
Theorem no_division_by_zero_K :
  (forall X : R, NONZERO X = (X <? 0.0) || (X >? 0.0))
  /\ (forall X : R, NONZERO X = true <-> X < 0 \/ X > 0)
  /\ (forall X : R, NONZERO X = true <-> X <> 0)
  /\ (forall (el : ThickCombinedFunctionDipoleData) (part : LocalParticle),
         fst (Traced.track_traced el part) = track el part
         /\ Forall (Traced.safe_event (CFD.Kx el part) (CFD.Ky el part))
                   (snd (Traced.track_traced el part))
         /\ (forall (d : Traced.divisor) (v : R),
                In (d, v) (snd (Traced.track_traced el part)) ->
                d = Traced.by_Kx \/ d = Traced.by_2Kx
                \/ d = Traced.by_Ky \/ d = Traced.by_2Ky ->
                v <> 0)).
Proof.
  split; [reflexivity |].
  split.
  { intros X. unfold NONZERO.
    rewrite orb_true_iff, Rltb_true, Rgtb_true. lra. }
  split; [exact NONZERO_true |].
  intros el part.
  split; [apply track_traced_value |].
  split; [apply track_traced_safe |].
  intros d v Hin Hd.
  pose proof (track_traced_safe el part) as Hsafe.
  rewrite Forall_forall in Hsafe. specialize (Hsafe (d, v) Hin).
  unfold Traced.safe_event in Hsafe. simpl in Hsafe.
  destruct Hd as [-> | [-> | [-> | ->]]]; tauto.
Qed.

(** In scenario 1 the map divides by [Kx = 0.0004]. *)
Lemma no_division_by_zero_K_witness :
  NONZERO (CFD.Kx scenario1_el scenario1_part) = true
  /\ CFD.Kx scenario1_el scenario1_part <> 0.
Proof.
  assert (HK : NONZERO (CFD.Kx scenario1_el scenario1_part) = true).
  { apply NONZERO_true.
    unfold CFD.Kx, CFD.k0, CFD.k1, CFD.k0_, CFD.k1_, CFD.h,
      CFD.delta_plus_1.
    simpl. lra. }
  split; [exact HK |].
  destruct no_division_by_zero_K as (_ & _ & _ & Hmap).
  destruct (Hmap scenario1_el scenario1_part) as (_ & _ & Hdiv).
  apply (Hdiv Traced.by_Kx (CFD.Kx scenario1_el scenario1_part)).
  - apply track_traced_divides_by_Kx. exact HK.
  - left. reflexivity.
Defined.

(** ** Remainders of the sine, cosine and hyperbolic series *)

Lemma mvt_nonneg (H H' : R -> R) (a : R) :
  (forall c, 0 <= c <= a -> derivable_pt_lim H c (H' c)) ->
  (forall c, 0 <= c <= a -> 0 <= H' c) ->
  forall t, 0 <= t <= a -> H 0 <= H t.
Proof.
  intros Hder Hpos t [Ht0 Hta].
  destruct (Req_dec_T t 0) as [-> | Hne]; [lra |].
  assert (Hlt : 0 < t) by lra.
  destruct (MVT_cor2 H H' 0 t Hlt) as (c & Heq & Hc).
  { intros c Hc. apply Hder. lra. }
  assert (0 <= H' c) by (apply Hpos; lra).
  assert (0 <= H' c * (t - 0)) by (apply Rmult_le_pos; lra).
  lra.
Qed.

Lemma derivable_pt_lim_monomial (k : R) (n : nat) (c : R) :
  derivable_pt_lim (fun y => k / INR (S n) * y ^ S n) c (k * c ^ n).
Proof.
  assert (Hn : INR (S n) <> 0) by (apply not_0_INR; lia).
  replace (k * c ^ n) with (k / INR (S n) * (INR (S n) * c ^ pred (S n))).
  - apply (derivable_pt_lim_scal (fun y => y ^ S n) (k / INR (S n)) c).
    apply derivable_pt_lim_pow.
  - simpl pred. field. exact Hn.
Qed.

Lemma antiderivative_bound (e E : R -> R) (M : R) (n : nat) (a : R) :
  (forall c, derivable_pt_lim E c (e c)) ->
  E 0 = 0 ->
  (forall c, 0 <= c <= a -> Rabs (e c) <= M * c ^ n) ->
  forall c, 0 <= c <= a -> Rabs (E c) <= M / INR (S n) * c ^ S n.
Proof.
  intros HE HE0 Hb c Hc.
  assert (Hup : (fun y => M / INR (S n) * y ^ S n - E y) 0
                <= (fun y => M / INR (S n) * y ^ S n - E y) c).
  { apply (mvt_nonneg (fun y => M / INR (S n) * y ^ S n - E y)
             (fun y => M * y ^ n - e y) a); [| | exact Hc].
    - intros y _.
      apply (derivable_pt_lim_minus (fun y => M / INR (S n) * y ^ S n) E).
      + apply derivable_pt_lim_monomial.
      + apply HE.
    - intros y Hy. specialize (Hb y Hy).
      pose proof (Rle_abs (e y)). lra. }
  assert (Hlo : (fun y => M / INR (S n) * y ^ S n + E y) 0
                <= (fun y => M / INR (S n) * y ^ S n + E y) c).
  { apply (mvt_nonneg (fun y => M / INR (S n) * y ^ S n + E y)
             (fun y => M * y ^ n + e y) a); [| | exact Hc].
    - intros y _.
      apply (derivable_pt_lim_plus (fun y => M / INR (S n) * y ^ S n) E).
      + apply derivable_pt_lim_monomial.
      + apply HE.
    - intros y Hy. specialize (Hb y Hy).
      pose proof (Rle_abs (- e y)). rewrite Rabs_Ropp in H. lra. }
  cbv beta in Hup, Hlo.
  rewrite HE0 in Hup, Hlo.
  replace (0 ^ S n) with 0 in Hup, Hlo by (simpl; ring).
  apply Rabs_le. lra.
Qed.

Lemma derivable_pt_lim_value (f : R -> R) (x l l' : R) :
  derivable_pt_lim f x l -> l = l' -> derivable_pt_lim f x l'.
Proof. intros Hd <-. exact Hd. Qed.


Lemma derivable_pt_lim_pointwise (f g : R -> R) (x l : R) :
  (forall y, f y = g y) -> derivable_pt_lim f x l -> derivable_pt_lim g x l.
Proof.
  intros Hfg Hd eps Heps. destruct (Hd eps Heps) as [delta Hdelta].
  exists delta. intros h Hh Hlt. rewrite <- !Hfg. apply Hdelta; assumption.
Qed.

Lemma derivable_pt_lim_sq_half (c : R) :
  derivable_pt_lim (fun y => y ^ 2 / 2) c c.
Proof.
  apply (derivable_pt_lim_pointwise (fun y => 1 / INR 2 * y ^ 2)).
  - intros y. simpl. field.
  - apply (derivable_pt_lim_value _ _ (1 * c ^ 1)); [| ring].
    apply (derivable_pt_lim_monomial 1 1 c).
Qed.

Lemma derivable_pt_lim_cube_sixth (c : R) :
  derivable_pt_lim (fun y => y ^ 3 / 6) c (c ^ 2 / 2).
Proof.
  apply (derivable_pt_lim_pointwise (fun y => (1 / 2) / INR 3 * y ^ 3)).
  - intros y. simpl. field.
  - apply (derivable_pt_lim_value _ _ (1 / 2 * c ^ 2)); [| field].
    apply (derivable_pt_lim_monomial (1 / 2) 2 c).
Qed.

Lemma trig_rem_derivative (n : nat) (c : R) :
  (n < 5)%nat -> derivable_pt_lim (trig_rem (S n)) c (trig_rem n c).
Proof.
  intros Hn.
  destruct n as [| [| [| [| [| n]]]]]; [| | | | | lia]; simpl.
  - apply derivable_pt_lim_sin.
  - apply (derivable_pt_lim_value _ _ (0 - - sin c)); [| ring].
    apply (derivable_pt_lim_minus (fun _ => 1) cos).
    + apply derivable_pt_lim_const.
    + apply derivable_pt_lim_cos.
  - apply (derivable_pt_lim_minus id sin).
    + apply derivable_pt_lim_id.
    + apply derivable_pt_lim_sin.
  - apply (derivable_pt_lim_minus (fun y => y ^ 2 / 2) (trig_rem 2)).
    + apply derivable_pt_lim_sq_half.
    + apply (derivable_pt_lim_value _ _ (0 - - sin c)); [| ring].
      apply (derivable_pt_lim_minus (fun _ => 1) cos).
      * apply derivable_pt_lim_const.
      * apply derivable_pt_lim_cos.
  - apply (derivable_pt_lim_minus (fun y => y ^ 3 / 6) (trig_rem 3)).
    + apply derivable_pt_lim_cube_sixth.
    + apply (derivable_pt_lim_minus id sin).
      * apply derivable_pt_lim_id.
      * apply derivable_pt_lim_sin.
Qed.

Lemma hyp_rem_derivative (n : nat) (c : R) :
  (n < 5)%nat -> derivable_pt_lim (hyp_rem (S n)) c (hyp_rem n c).
Proof.
  intros Hn.
  destruct n as [| [| [| [| [| n]]]]]; [| | | | | lia]; simpl.
  - apply derivable_pt_lim_sinh.
  - apply (derivable_pt_lim_value _ _ (sinh c - 0)); [| ring].
    apply (derivable_pt_lim_minus cosh (fun _ => 1)).
    + apply derivable_pt_lim_cosh.
    + apply derivable_pt_lim_const.
  - apply (derivable_pt_lim_minus sinh id).
    + apply derivable_pt_lim_sinh.
    + apply derivable_pt_lim_id.
  - apply (derivable_pt_lim_minus (hyp_rem 2) (fun y => y ^ 2 / 2)).
    + apply (derivable_pt_lim_value _ _ (sinh c - 0)); [| ring].
      apply (derivable_pt_lim_minus cosh (fun _ => 1)).
      * apply derivable_pt_lim_cosh.
      * apply derivable_pt_lim_const.
    + apply derivable_pt_lim_sq_half.
  - apply (derivable_pt_lim_minus (hyp_rem 3) (fun y => y ^ 3 / 6)).
    + apply (derivable_pt_lim_minus sinh id).
      * apply derivable_pt_lim_sinh.
      * apply derivable_pt_lim_id.
    + apply derivable_pt_lim_cube_sixth.
Qed.

Lemma trig_rem_0 (n : nat) : trig_rem (S n) 0 = 0.
Proof.
  destruct n as [| [| [| [| n]]]]; simpl;
    rewrite ?sin_0, ?cos_0; lra.
Qed.

Lemma hyp_rem_0 (n : nat) : hyp_rem (S n) 0 = 0.
Proof.
  destruct n as [| [| [| [| n]]]]; simpl;
    rewrite ?sinh_0, ?cosh_0; lra.
Qed.


Lemma trig_rem_bound (n : nat) (c : R) :
  (n <= 5)%nat -> 0 <= c -> Rabs (trig_rem n c) <= 1 * inv_fact n * c ^ n.
Proof.
  intros Hn Hc. revert c Hc. induction n as [| n IH]; intros c Hc.
  - simpl. pose proof (COS_bound c). rewrite Rmult_1_r, Rmult_1_r.
    apply Rabs_le. lra.
  - replace (1 * inv_fact (S n) * c ^ S n)
      with ((1 * inv_fact n) / INR (S n) * c ^ S n)
      by (change (inv_fact (S n)) with (inv_fact n / INR (S n));
          unfold Rdiv; ring).
    apply (antiderivative_bound (trig_rem n) (trig_rem (S n))
             (1 * inv_fact n) n c).
    + intros y. apply trig_rem_derivative. lia.
    + apply trig_rem_0.
    + intros y Hy. apply IH; [lia | lra].
    + lra.
Qed.

Lemma cosh_bound (c : R) : 0 <= c <= 1 -> 0 <= cosh c <= 2.
Proof.
  intros [Hc0 Hc1]. unfold cosh.
  pose proof (exp_pos c). pose proof (exp_pos (- c)).
  assert (exp c <= 3).
  { apply Rle_trans with (exp 1); [| apply exp_le_3].
    destruct (Req_dec_T c 1) as [-> | Hne]; [lra |].
    left. apply exp_increasing. lra. }
  assert (exp (- c) <= 1).
  { rewrite <- exp_0.
    destruct (Req_dec_T c 0) as [-> | Hne]; [rewrite Ropp_0; lra |].
    left. apply exp_increasing. lra. }
  lra.
Qed.

Lemma hyp_rem_bound (n : nat) (c : R) :
  (n <= 5)%nat -> 0 <= c <= 1 -> Rabs (hyp_rem n c) <= 2 * inv_fact n * c ^ n.
Proof.
  intros Hn Hc. revert c Hc. induction n as [| n IH]; intros c Hc.
  - simpl. pose proof (cosh_bound c Hc). rewrite Rmult_1_r, Rmult_1_r.
    apply Rabs_le. lra.
  - replace (2 * inv_fact (S n) * c ^ S n)
      with ((2 * inv_fact n) / INR (S n) * c ^ S n)
      by (change (inv_fact (S n)) with (inv_fact n / INR (S n));
          unfold Rdiv; ring).
    apply (antiderivative_bound (hyp_rem n) (hyp_rem (S n))
             (2 * inv_fact n) n 1).
    + intros y. apply hyp_rem_derivative. lia.
    + apply hyp_rem_0.
    + intros y Hy. apply IH; [lia | lra].
    + lra.
Qed.

Lemma cosh_neg (c : R) : cosh (- c) = cosh c.
Proof. unfold cosh. rewrite Ropp_involutive. lra. Qed.

Lemma sinh_neg (c : R) : sinh (- c) = - sinh c.
Proof. unfold sinh. rewrite Ropp_involutive. lra. Qed.

Lemma trig_rem_neg (n : nat) (c : R) :
  Rabs (trig_rem n (- c)) = Rabs (trig_rem n c).
Proof.
  destruct n as [| [| [| [| [| n]]]]]; simpl;
    rewrite ?cos_neg, ?sin_neg.
  - reflexivity.
  - apply Rabs_Ropp.
  - reflexivity.
  - replace (- c - - sin c) with (- (c - sin c)) by ring. apply Rabs_Ropp.
  - f_equal. field.
  - replace (- c * (- c * (- c * 1)) / 6 - (- c - - sin c))
      with (- (c * (c * (c * 1)) / 6 - (c - sin c))) by (unfold Rdiv; ring).
    apply Rabs_Ropp.
Qed.

Lemma hyp_rem_neg (n : nat) (c : R) :
  Rabs (hyp_rem n (- c)) = Rabs (hyp_rem n c).
Proof.
  destruct n as [| [| [| [| [| n]]]]]; simpl;
    rewrite ?cosh_neg, ?sinh_neg.
  - reflexivity.
  - apply Rabs_Ropp.
  - reflexivity.
  - replace (- sinh c - - c) with (- (sinh c - c)) by ring. apply Rabs_Ropp.
  - f_equal. field.
  - replace (- sinh c - - c - - c * (- c * (- c * 1)) / 6)
      with (- (sinh c - c - c * (c * (c * 1)) / 6)) by (unfold Rdiv; ring).
    apply Rabs_Ropp.
Qed.

Lemma trig_rem_bound_abs (n : nat) (c : R) :
  (n <= 5)%nat -> Rabs (trig_rem n c) <= inv_fact n * Rabs c ^ n.
Proof.
  intros Hn. unfold Rabs at 2. destruct (Rcase_abs c) as [Hneg | Hpos].
  - rewrite <- trig_rem_neg.
    pose proof (trig_rem_bound n (- c) Hn) as Hb. lra.
  - pose proof (trig_rem_bound n c Hn) as Hb. lra.
Qed.

Lemma hyp_rem_bound_abs (n : nat) (c : R) :
  (n <= 5)%nat -> Rabs c <= 1 ->
  Rabs (hyp_rem n c) <= 2 * inv_fact n * Rabs c ^ n.
Proof.
  intros Hn. unfold Rabs at 1 3. destruct (Rcase_abs c) as [Hneg | Hpos];
    intros Hc.
  - rewrite <- hyp_rem_neg. apply hyp_rem_bound; [exact Hn | lra].
  - apply hyp_rem_bound; [exact Hn | lra].
Qed.

Lemma inv_fact_4 : inv_fact 4 = / 24.
Proof. simpl. field. Qed.

Lemma inv_fact_5 : inv_fact 5 = / 120.
Proof. simpl. field. Qed.

(** ** Second-order expansions of the regime functions at [K = 0] *)

Lemma Rabs_pow4 (c : R) : Rabs c ^ 4 = c ^ 4.
Proof.
  rewrite RPow_abs. apply Rabs_pos_eq.
  replace (c ^ 4) with ((c ^ 2) ^ 2) by ring. apply pow2_ge_0.
Qed.

Lemma Rabs_le_1_of_sq (c : R) : c * c <= 1 -> Rabs c <= 1.
Proof. intros Hc. apply Rabs_le. nra. Qed.

Lemma regime_C_expansion (K L : R) :
  Rabs K * (L * L) <= 1 ->
  Rabs (regime_C K L - 1 + K * L ^ 2 / 2) <= K ^ 2 * L ^ 4 / 12.
Proof.
  intros Hsmall.
  destruct (Rtotal_order K 0) as [Hneg | [Hzero | Hpos]].
  - rewrite (regime_C_neg K L Hneg).
    assert (Hw : sqrt (- K) * sqrt (- K) = - K) by (apply sqrt_sqrt; lra).
    rewrite (Rabs_left K Hneg) in Hsmall.
    set (w := sqrt (- K)) in *. clearbody w.
    assert (HK : K = - (w * w)) by lra.
    replace (cosh (w * L) - 1 + K * L ^ 2 / 2) with (hyp_rem 4 (w * L))
      by (simpl; rewrite HK; field).
    eapply Rle_trans.
    + apply hyp_rem_bound_abs; [lia |].
      apply Rabs_le_1_of_sq. nra.
    + rewrite inv_fact_4, Rabs_pow4, HK. apply Req_le. field.
  - subst K. rewrite regime_C_0.
    replace (1 - 1 + 0 * L ^ 2 / 2) with 0 by field.
    rewrite Rabs_R0. apply Req_le. field.
  - rewrite (regime_C_pos K L Hpos).
    assert (Hw : sqrt K * sqrt K = K) by (apply sqrt_sqrt; lra).
    set (w := sqrt K) in *. clearbody w.
    replace (cos (w * L) - 1 + K * L ^ 2 / 2) with (trig_rem 4 (w * L))
      by (simpl; rewrite <- Hw; field).
    eapply Rle_trans.
    + apply trig_rem_bound_abs. lia.
    + rewrite inv_fact_4, Rabs_pow4, <- Hw.
      assert (0 <= (w * L) ^ 4)
        by (replace ((w * L) ^ 4) with (((w * L) ^ 2) ^ 2) by ring;
            apply pow2_ge_0).
      replace ((w * w) ^ 2 * L ^ 4 / 12) with ((w * L) ^ 4 / 12) by field.
      lra.
Qed.

Lemma regime_S_expansion (K L : R) :
  Rabs K * (L * L) <= 1 ->
  Rabs (regime_S K L - L + K * L ^ 3 / 6) <= K ^ 2 * Rabs L ^ 5 / 60.
Proof.
  intros Hsmall.
  destruct (Rtotal_order K 0) as [Hneg | [Hzero | Hpos]].
  - rewrite (regime_S_neg K L Hneg).
    assert (Hw : sqrt (- K) * sqrt (- K) = - K) by (apply sqrt_sqrt; lra).
    assert (Hwpos : 0 < sqrt (- K)) by (apply sqrt_lt_R0; lra).
    rewrite (Rabs_left K Hneg) in Hsmall.
    set (w := sqrt (- K)) in *. clearbody w.
    assert (HK : K = - (w * w)) by lra.
    replace (sinh (w * L) / w - L + K * L ^ 3 / 6)
      with (hyp_rem 5 (w * L) / w)
      by (simpl; rewrite HK; field; lra).
    unfold Rdiv at 1. rewrite Rabs_mult, (Rabs_pos_eq (/ w)).
    2:{ left. apply Rinv_0_lt_compat. exact Hwpos. }
    assert (Hb : Rabs (hyp_rem 5 (w * L))
                 <= 2 * inv_fact 5 * Rabs (w * L) ^ 5).
    { apply hyp_rem_bound_abs; [lia |].
      apply Rabs_le_1_of_sq. nra. }
    rewrite inv_fact_5, Rabs_mult, (Rabs_pos_eq w) in Hb by lra.
    apply Rle_trans with (2 * / 120 * (w * Rabs L) ^ 5 * / w).
    + apply Rmult_le_compat_r; [| exact Hb].
      left. apply Rinv_0_lt_compat. exact Hwpos.
    + rewrite HK. apply Req_le. field. lra.
  - subst K. rewrite regime_S_0.
    replace (L - L + 0 * L ^ 3 / 6) with 0 by field.
    rewrite Rabs_R0. apply Req_le. field.
  - rewrite (regime_S_pos K L Hpos).
    assert (Hw : sqrt K * sqrt K = K) by (apply sqrt_sqrt; lra).
    assert (Hwpos : 0 < sqrt K) by (apply sqrt_lt_R0; lra).
    set (w := sqrt K) in *. clearbody w.
    replace (sin (w * L) / w - L + K * L ^ 3 / 6)
      with (trig_rem 5 (w * L) / w)
      by (simpl; rewrite <- Hw; field; lra).
    unfold Rdiv at 1. rewrite Rabs_mult, (Rabs_pos_eq (/ w)).
    2:{ left. apply Rinv_0_lt_compat. exact Hwpos. }
    assert (Hb : Rabs (trig_rem 5 (w * L))
                 <= inv_fact 5 * Rabs (w * L) ^ 5).
    { apply trig_rem_bound_abs. lia. }
    rewrite inv_fact_5, Rabs_mult, (Rabs_pos_eq w) in Hb by lra.
    assert (Hnn : 0 <= (w * Rabs L) ^ 5).
    { apply pow_le. apply Rmult_le_pos; [lra | apply Rabs_pos]. }
    apply Rle_trans with (/ 120 * (w * Rabs L) ^ 5 * / w).
    + apply Rmult_le_compat_r; [| exact Hb].
      left. apply Rinv_0_lt_compat. exact Hwpos.
    + rewrite <- Hw.
      replace ((w * w) ^ 2 * Rabs L ^ 5 / 60)
        with (2 * (/ 120 * (w * Rabs L) ^ 5 * / w)) by (field; lra).
      assert (0 <= / 120 * (w * Rabs L) ^ 5 * / w).
      { apply Rmult_le_pos; [lra |].
        left. apply Rinv_0_lt_compat. exact Hwpos. }
      lra.
Qed.

(** ** Limits at [K = 0] *)

Lemma limit_of_linear_bound (f : R -> R) (l M r : R) :
  0 < r -> 0 <= M ->
  (forall K, K <> 0 -> Rabs K < r -> Rabs (f K - l) <= M * Rabs K) ->
  limit1_in f nonzero l 0.
Proof.
  intros Hr HM Hb eps Heps.
  exists (Rmin r (eps / (M + 1))). split.
  - apply Rmin_Rgt_r. split; [lra |].
    apply Rdiv_lt_0_compat; lra.
  - intros K [HK Hd]. simpl in Hd. unfold R_dist in Hd.
    rewrite Rminus_0_r in Hd.
    apply Rmin_Rgt_l in Hd. destruct Hd as [Hd1 Hd2].
    simpl. unfold R_dist.
    apply Rle_lt_trans with (M * Rabs K); [apply Hb; [exact HK | lra] |].
    apply Rle_lt_trans with (M * (eps / (M + 1))).
    + apply Rmult_le_compat_l; lra.
    + assert (Hq : M * (eps / (M + 1)) = eps * (M / (M + 1)))
        by (field; lra).
      rewrite Hq.
      assert (M / (M + 1) < 1).
      { apply Rmult_lt_reg_r with (M + 1); [lra |].
        unfold Rdiv. rewrite Rmult_assoc, Rinv_l by lra. lra. }
      nra.
Qed.

Lemma small_K (K L : R) :
  Rabs K < / (L * L + 1) -> Rabs K * (L * L) <= 1 /\ Rabs K < 1.
Proof.
  intros HK.
  assert (Hpos : 0 < L * L + 1) by nra.
  assert (Hinv : / (L * L + 1) <= 1).
  { rewrite <- Rinv_1. apply Rinv_le_contravar; nra. }
  assert (Hprod : Rabs K * (L * L + 1) < 1).
  { apply Rmult_lt_reg_r with (/ (L * L + 1)).
    - apply Rinv_0_lt_compat. exact Hpos.
    - rewrite Rmult_assoc, Rinv_r by lra. lra. }
  pose proof (Rabs_pos K). split; nra.
Qed.

Lemma small_K_radius (L : R) : 0 < / (L * L + 1).
Proof. apply Rinv_0_lt_compat. nra. Qed.

Lemma limit_regime_C1 (L : R) :
  limit1_in (fun K => regime_C1 K L) nonzero (- (L ^ 2 / 2)) 0.
Proof.
  apply (limit_of_linear_bound _ _ (L ^ 4 / 12) (/ (L * L + 1))).
  - apply small_K_radius.
  - assert (0 <= L ^ 4)
      by (replace (L ^ 4) with ((L ^ 2) ^ 2) by ring; apply pow2_ge_0).
    lra.
  - intros K HK Hsmall. apply small_K in Hsmall. destruct Hsmall as [Hs _].
    pose proof (regime_C_expansion K L Hs) as Hexp.
    unfold regime_C1.
    replace ((regime_C K L - 1) / K - - (L ^ 2 / 2))
      with ((regime_C K L - 1 + K * L ^ 2 / 2) * / K) by (field; exact HK).
    rewrite Rabs_mult, Rabs_inv.
    assert (HaK : 0 < Rabs K) by (apply Rabs_pos_lt; exact HK).
    apply Rmult_le_reg_r with (Rabs K); [exact HaK |].
    rewrite Rmult_assoc, Rinv_l, Rmult_1_r by lra.
    replace (L ^ 4 / 12 * Rabs K * Rabs K) with (Rabs K ^ 2 * L ^ 4 / 12)
      by field.
    replace (Rabs K ^ 2) with (K ^ 2).
    + exact Hexp.
    + rewrite RPow_abs. symmetry. apply Rabs_pos_eq. apply pow2_ge_0.
Qed.

Lemma limit_regime_S1 (L : R) :
  limit1_in (fun K => regime_S1 K L) nonzero (- (L ^ 3 / 6)) 0.
Proof.
  apply (limit_of_linear_bound _ _ (Rabs L ^ 5 / 60) (/ (L * L + 1))).
  - apply small_K_radius.
  - assert (0 <= Rabs L ^ 5) by (apply pow_le; apply Rabs_pos).
    lra.
  - intros K HK Hsmall. apply small_K in Hsmall. destruct Hsmall as [Hs _].
    pose proof (regime_S_expansion K L Hs) as Hexp.
    unfold regime_S1.
    replace ((regime_S K L - L) / K - - (L ^ 3 / 6))
      with ((regime_S K L - L + K * L ^ 3 / 6) * / K) by (field; exact HK).
    rewrite Rabs_mult, Rabs_inv.
    assert (HaK : 0 < Rabs K) by (apply Rabs_pos_lt; exact HK).
    apply Rmult_le_reg_r with (Rabs K); [exact HaK |].
    rewrite Rmult_assoc, Rinv_l, Rmult_1_r by lra.
    replace (Rabs L ^ 5 / 60 * Rabs K * Rabs K)
      with (Rabs K ^ 2 * Rabs L ^ 5 / 60) by field.
    replace (Rabs K ^ 2) with (K ^ 2).
    + exact Hexp.
    + rewrite RPow_abs. symmetry. apply Rabs_pos_eq. apply pow2_ge_0.
Qed.

Lemma limit1_in_value (f : R -> R) (D : R -> Prop) (l l' x0 : R) :
  limit1_in f D l x0 -> l = l' -> limit1_in f D l' x0.
Proof. intros Hl <-. exact Hl. Qed.

Lemma limit1_in_pointwise (f g : R -> R) (D : R -> Prop) (l x0 : R) :
  (forall K, D K -> f K = g K) -> limit1_in f D l x0 -> limit1_in g D l x0.
Proof.
  intros Hfg Hl eps Heps. destruct (Hl eps Heps) as (alp & Halp & Hclose).
  exists alp. split; [exact Halp |].
  intros K [HD Hd]. rewrite <- (Hfg K HD). apply Hclose. split; assumption.
Qed.

Lemma limit_const (c : R) (D : R -> Prop) (x0 : R) :
  limit1_in (fun _ => c) D c x0.
Proof.
  intros eps Heps. exists 1. split; [lra |].
  intros K _. simpl. unfold R_dist. rewrite Rminus_diag, Rabs_R0. exact Heps.
Qed.

(** Limits of sums and products of functions whose limits are known. *)
Ltac limit_step :=
  lazymatch goal with
  | |- limit1_in (fun _ => ?c) _ _ _ => apply limit_const
  | |- limit1_in (fun K => K) _ _ _ => apply lim_x
  | |- limit1_in (fun K => regime_S1 K ?L) _ _ _ => apply limit_regime_S1
  | |- limit1_in (fun K => regime_C1 K ?L) _ _ _ => apply limit_regime_C1
  | |- limit1_in (fun K => @?f K + @?g K) _ _ _ => eapply (limit_plus f g)
  | |- limit1_in (fun K => @?f K - @?g K) _ _ _ => eapply (limit_minus f g)
  | |- limit1_in (fun K => @?f K * @?g K) _ _ _ => eapply (limit_mul f g)
  | |- limit1_in (fun K => - @?f K) _ _ _ => eapply (limit_Ropp f)
  end.

Ltac limit_auto := repeat limit_step.

Lemma regime_S_quotient (K L : R) :
  K <> 0 -> regime_S K L = L + K * regime_S1 K L.
Proof. intros HK. unfold regime_S1. field. exact HK. Qed.

Lemma regime_C_quotient (K L : R) :
  K <> 0 -> regime_C K L = 1 + K * regime_C1 K L.
Proof. intros HK. unfold regime_C1. field. exact HK. Qed.

Lemma limit_regime_S (L : R) :
  limit1_in (fun K => regime_S K L) nonzero L 0.
Proof.
  apply (limit1_in_pointwise (fun K => L + K * regime_S1 K L)).
  - intros K HK. symmetry. apply regime_S_quotient. exact HK.
  - eapply limit1_in_value; [limit_auto | ring].
Qed.

Lemma limit_regime_C (L : R) :
  limit1_in (fun K => regime_C K L) nonzero 1 0.
Proof.
  apply (limit1_in_pointwise (fun K => 1 + K * regime_C1 K L)).
  - intros K HK. symmetry. apply regime_C_quotient. exact HK.
  - eapply limit1_in_value; [limit_auto | ring].
Qed.

Lemma continuity_pt_of_limit (f : R -> R) (x0 : R) :
  limit1_in (fun K => f (x0 + K)) nonzero (f x0) 0 -> continuity_pt f x0.
Proof.
  intros Hl eps Heps. destruct (Hl eps Heps) as (alp & Halp & Hclose).
  exists alp. split; [exact Halp |].
  intros y [[_ Hne] Hd]. simpl in Hd. unfold R_dist in Hd.
  replace y with (x0 + (y - x0)) by ring.
  apply Hclose. split.
  - unfold nonzero. lra.
  - simpl. unfold R_dist. rewrite Rminus_0_r. exact Hd.
Qed.

(** The drift regime is the limit of the two others: [S] and [C] are
    continuous at [K = 0]. *)
Lemma regime_S_continuous_at_0 (L : R) :
  continuity_pt (fun K => regime_S K L) 0.
Proof.
  apply continuity_pt_of_limit. rewrite regime_S_0.
  apply (limit1_in_pointwise (fun K => regime_S K L)).
  - intros K _. rewrite Rplus_0_l. reflexivity.
  - apply limit_regime_S.
Qed.

Lemma regime_C_continuous_at_0 (L : R) :
  continuity_pt (fun K => regime_C K L) 0.
Proof.
  apply continuity_pt_of_limit. rewrite regime_C_0.
  apply (limit1_in_pointwise (fun K => regime_C K L)).
  - intros K _. rewrite Rplus_0_l. reflexivity.
  - apply limit_regime_C.
Qed.

Ltac limit_step ::=
  lazymatch goal with
  | |- limit1_in (fun _ => ?c) _ _ _ => apply limit_const
  | |- limit1_in (fun K => K) _ _ _ => apply lim_x
  | |- limit1_in (fun K => regime_S1 K ?L) _ _ _ => apply limit_regime_S1
  | |- limit1_in (fun K => regime_C1 K ?L) _ _ _ => apply limit_regime_C1
  | |- limit1_in (fun K => regime_S K ?L) _ _ _ => apply limit_regime_S
  | |- limit1_in (fun K => regime_C K ?L) _ _ _ => apply limit_regime_C
  | |- limit1_in (fun K => @?f K + @?g K) _ _ _ => eapply (limit_plus f g)
  | |- limit1_in (fun K => @?f K - @?g K) _ _ _ => eapply (limit_minus f g)
  | |- limit1_in (fun K => @?f K * @?g K) _ _ _ => eapply (limit_mul f g)
  | |- limit1_in (fun K => - @?f K) _ _ _ => eapply (limit_Ropp f)
  end.

Lemma limit_at_of_scaled_limit (g : R -> R) (x0 d l : R) :
  d <> 0 ->
  limit1_in (fun K => g (x0 + K * d)) nonzero l 0 ->
  limit1_in g (fun y => y <> x0) l x0.
Proof.
  intros Hd Hl eps Heps. destruct (Hl eps Heps) as (alp & Halp & Hclose).
  assert (Had : 0 < Rabs d) by (apply Rabs_pos_lt; exact Hd).
  exists (alp * Rabs d). split; [apply Rmult_lt_0_compat; lra |].
  intros y [Hne Hdist]. simpl in Hdist. unfold R_dist in Hdist.
  replace y with (x0 + (y - x0) / d * d) by (field; exact Hd).
  apply Hclose. split.
  - unfold nonzero. intros Hq.
    apply Hne. apply Rminus_diag_uniq.
    replace (y - x0) with ((y - x0) / d * d) by (field; exact Hd).
    rewrite Hq. ring.
  - simpl. unfold R_dist. rewrite Rminus_0_r.
    unfold Rdiv. rewrite Rabs_mult, Rabs_inv.
    apply Rmult_lt_reg_r with (Rabs d); [exact Had |].
    rewrite Rmult_assoc, Rinv_l by lra. lra.
Qed.

Lemma continuity_pt_of_limit_at (g : R -> R) (x0 : R) :
  limit1_in g (fun y => y <> x0) (g x0) x0 -> continuity_pt g x0.
Proof.
  intros Hl eps Heps. destruct (Hl eps Heps) as (alp & Halp & Hclose).
  exists alp. split; [exact Halp |].
  intros y [[_ Hne] Hd]. apply Hclose. split; [| exact Hd].
  intros Heq. apply Hne. symmetry. exact Heq.
Qed.

(** *** The horizontal plane, [k1] swept through the value where [Kx = 0] *)

Section horizontal_sweep.

Variable el : ThickCombinedFunctionDipoleData.
Variable part : LocalParticle.
Hypothesis Hdp : CFD.delta_plus_1 part <> 0.
Hypothesis HKx : CFD.Kx el part = 0.

Lemma Kx_at (K : R) : CFD.Kx (sweep_Kx el part K) part = K.
Proof.
  assert (E : CFD.Kx (sweep_Kx el part K) part = CFD.Kx el part + K).
  { unfold CFD.Kx, CFD.k0, CFD.k1, CFD.k0_, CFD.k1_, CFD.h, sweep_Kx, with_k1.
    unfold ThickCombinedFunctionDipoleData_get_k0,
      ThickCombinedFunctionDipoleData_get_k1,
      ThickCombinedFunctionDipoleData_get_h.
    simpl. field. exact Hdp. }
  rewrite E, HKx. ring.
Qed.

Lemma x_at (K : R) :
  K <> 0 ->
  CFD.x_ (sweep_Kx el part K) part
  = CFD.x part * regime_C K (CFD.length el)
    + CFD.xp part * regime_S K (CFD.length el)
    + (CFD.k0 el part - CFD.h el) * regime_C1 K (CFD.length el).
Proof.
  intros HK.
  assert (HK' : CFD.Kx (sweep_Kx el part K) part <> 0) by (rewrite Kx_at; exact HK).
  rewrite (x_nonzero _ _ HK'). unfold CFD.x_0.
  rewrite Sx_regime, Cx_regime, Kx_at. unfold regime_C1.
  change (CFD.length (sweep_Kx el part K)) with (CFD.length el).
  change (CFD.k0 (sweep_Kx el part K) part) with (CFD.k0 el part).
  change (CFD.h (sweep_Kx el part K)) with (CFD.h el).
  field. exact HK.
Qed.

Lemma x_at_0 :
  CFD.x_ el part
  = CFD.x part + CFD.xp part * CFD.length el
    - (CFD.k0 el part - CFD.h el) * (CFD.length el ^ 2 / 2).
Proof.
  rewrite (x_zero _ _ HKx). unfold CFD.x_0.
  rewrite Sx_regime, Cx_regime, HKx, regime_S_0, regime_C_0. field.
Qed.

(** The new [x] is continuous in [k1] where [Kx = 0]. *)
Lemma x_continuous_at_Kx_0 :
  continuity_pt (fun k => CFD.x_ (with_k1 el k) part) (el_k1 el).
Proof.
  apply continuity_pt_of_limit_at.
  apply (limit_at_of_scaled_limit _ _ (CFD.delta_plus_1 part)); [exact Hdp |].
  replace (with_k1 el (el_k1 el)) with el by (destruct el; reflexivity).
  apply (limit1_in_pointwise
           (fun K => CFD.x part * regime_C K (CFD.length el)
                     + CFD.xp part * regime_S K (CFD.length el)
                     + (CFD.k0 el part - CFD.h el)
                       * regime_C1 K (CFD.length el))).
  - intros K HK. symmetry. apply (x_at K HK).
  - eapply limit1_in_value; [limit_auto |].
    rewrite x_at_0. field.
Qed.

Lemma px_at (K : R) :
  CFD.px_ (sweep_Kx el part K) part
  = ((- K * CFD.x part - CFD.k0 el part + CFD.h el)
       * regime_S K (CFD.length el)
     + CFD.B part * regime_C K (CFD.length el))
    * CFD.delta_plus_1 part.
Proof.
  unfold CFD.px_, CFD.A. rewrite Sx_regime, Cx_regime, Kx_at. reflexivity.
Qed.

(** The new [px] is continuous in [k1] where [Kx = 0]. *)
Lemma px_continuous_at_Kx_0 :
  continuity_pt (fun k => CFD.px_ (with_k1 el k) part) (el_k1 el).
Proof.
  apply continuity_pt_of_limit_at.
  apply (limit_at_of_scaled_limit _ _ (CFD.delta_plus_1 part)); [exact Hdp |].
  replace (with_k1 el (el_k1 el)) with el by (destruct el; reflexivity).
  apply (limit1_in_pointwise
           (fun K => ((- K * CFD.x part - CFD.k0 el part + CFD.h el)
                        * regime_S K (CFD.length el)
                      + CFD.B part * regime_C K (CFD.length el))
                     * CFD.delta_plus_1 part)).
  - intros K _. symmetry. apply px_at.
  - eapply limit1_in_value; [limit_auto |].
    unfold CFD.px_, CFD.A.
    rewrite Sx_regime, Cx_regime, HKx, regime_S_0, regime_C_0. ring.
Qed.

Lemma length_h_at (K : R) :
  K <> 0 ->
  CFD.length_h (sweep_Kx el part K) part
  = CFD.length el
    - CFD.h el
      * (CFD.xp part * regime_C1 K (CFD.length el)
         - CFD.x part * regime_S K (CFD.length el)
         - (CFD.k0 el part - CFD.h el) * regime_S1 K (CFD.length el))
    + / 2
      * ((- K * CFD.x part - CFD.k0 el part + CFD.h el)
         * (- K * CFD.x part - CFD.k0 el part + CFD.h el)
         * (- (regime_S1 K (CFD.length el)
               + regime_C1 K (CFD.length el) * regime_S K (CFD.length el)))
         * / 2
         + CFD.B part * CFD.B part
           * (regime_C K (CFD.length el) * regime_S K (CFD.length el)
              + CFD.length el)
           * / 2
         + (- K * CFD.x part - CFD.k0 el part + CFD.h el) * CFD.B part
           * (- (regime_C1 K (CFD.length el)
                 * (1 + regime_C K (CFD.length el))))).
Proof.
  intros HK.
  assert (HK' : CFD.Kx (sweep_Kx el part K) part <> 0) by (rewrite Kx_at; exact HK).
  rewrite (length_h_nonzero _ _ HK'). unfold CFD.A, POW2.
  rewrite Sx_regime, Cx_regime, Kx_at. unfold regime_C1, regime_S1.
  change (CFD.length (sweep_Kx el part K)) with (CFD.length el).
  change (CFD.k0 (sweep_Kx el part K) part) with (CFD.k0 el part).
  change (CFD.h (sweep_Kx el part K)) with (CFD.h el).
  field. exact HK.
Qed.

Lemma length_h_at_0 :
  CFD.length_h el part
  = CFD.length el
    + CFD.h el * CFD.length el
      * (3 * CFD.length el * CFD.xp part + 6 * CFD.x part
         - (CFD.k0 el part - CFD.h el) * (CFD.length el * CFD.length el)) / 6
    + / 2 * (CFD.B part * CFD.B part) * CFD.length el.
Proof.
  rewrite (length_h_zero _ _ HKx). unfold POW2. reflexivity.
Qed.

(** As [k1] tends to the value where [Kx = 0], the horizontal part of
    the path length tends to its value there plus
    [(A0 * B * length ^ 2 + A0 ^ 2 * length ^ 3 / 3) / 2], where
    [A0 = h - k0] is the value of [A] at [Kx = 0]. *)
Lemma length_h_limit_at_Kx_0 :
  limit1_in (fun k => CFD.length_h (with_k1 el k) part)
    (fun k => k <> el_k1 el)
    (CFD.length_h el part
     + / 2 * ((CFD.h el - CFD.k0 el part) * CFD.B part * CFD.length el ^ 2
              + (CFD.h el - CFD.k0 el part) ^ 2 * CFD.length el ^ 3 / 3))
    (el_k1 el).
Proof.
  apply (limit_at_of_scaled_limit _ _ (CFD.delta_plus_1 part)); [exact Hdp |].
  eapply limit1_in_pointwise.
  - intros K HK. symmetry. apply (length_h_at K HK).
  - eapply limit1_in_value; [limit_auto |].
    rewrite length_h_at_0. field.
Qed.

End horizontal_sweep.

(** *** The path-length terms as functions of the focusing constant *)

Lemma spec_curvature_term_nonzero (K k0_eff h x xp A S C L : R) :
  K <> 0 ->
  spec_curvature_term K k0_eff h x xp A S C L
  = - (h * ((C - 1) * xp + S * A + L * (k0_eff - h))) / K.
Proof.
  intros HK. unfold spec_curvature_term.
  destruct (Req_dec_T K 0) as [H0 | _]; [contradiction | reflexivity].
Qed.

Lemma spec_curvature_term_zero (k0_eff h x xp A S C L : R) :
  spec_curvature_term 0 k0_eff h x xp A S C L
  = h * L * (3 * L * xp + 6 * x - (k0_eff - h) * L ^ 2) / 6.
Proof.
  unfold spec_curvature_term.
  destruct (Req_dec_T 0 0) as [_ | H0]; [reflexivity | contradiction].
Qed.

Lemma spec_cross_term_nonzero (K A B S C L : R) :
  K <> 0 ->
  spec_cross_term K A B S C L
  = 0.5 * (- A ^ 2 * C * S / (2 * K) + B ^ 2 * C * S / 2
           + A ^ 2 * L / (2 * K) + B ^ 2 * L / 2
           - A * B * C ^ 2 / K + A * B / K).
Proof.
  intros HK. unfold spec_cross_term.
  destruct (Req_dec_T K 0) as [H0 | _]; [contradiction | reflexivity].
Qed.

Lemma spec_cross_term_zero (A B S C L : R) :
  spec_cross_term 0 A B S C L = 0.5 * B ^ 2 * L.
Proof.
  unfold spec_cross_term.
  destruct (Req_dec_T 0 0) as [_ | H0]; [reflexivity | contradiction].
Qed.

(** The cubic polynomial of the [Kx == 0] branch is the limit of the
    general curvature term. *)
Lemma curvature_term_continuous_at_0 (k0_eff h x xp L : R) :
  continuity_pt
    (fun K => spec_curvature_term K k0_eff h x xp (- K * x - k0_eff + h)
                (regime_S K L) (regime_C K L) L) 0.
Proof.
  apply continuity_pt_of_limit.
  rewrite spec_curvature_term_zero.
  apply (limit1_in_pointwise
           (fun K => - (h * (xp * regime_C1 K L - x * regime_S K L
                             - (k0_eff - h) * regime_S1 K L)))).
  - intros K HK. rewrite Rplus_0_l.
    rewrite (spec_curvature_term_nonzero _ _ _ _ _ _ _ _ _ HK).
    unfold regime_C1, regime_S1. field. exact HK.
  - eapply limit1_in_value; [limit_auto | field].
Qed.

(** The general cross term, with [A = - K * x + A0], tends to
    [(B ^ 2 * L + A0 * B * L ^ 2 + A0 ^ 2 * L ^ 3 / 3) / 2]. *)
Lemma cross_term_limit_at_0 (x A0 B L : R) :
  limit1_in
    (fun K => spec_cross_term K (- K * x + A0) B
                (regime_S K L) (regime_C K L) L)
    nonzero
    (/ 2 * (B ^ 2 * L + A0 * B * L ^ 2 + A0 ^ 2 * L ^ 3 / 3)) 0.
Proof.
  apply (limit1_in_pointwise
           (fun K => / 2
                     * ((- K * x + A0) * (- K * x + A0)
                        * (- (regime_S1 K L + regime_C1 K L * regime_S K L))
                        * / 2
                        + B * B * (regime_C K L * regime_S K L + L) * / 2
                        + (- K * x + A0) * B
                          * (- (regime_C1 K L * (1 + regime_C K L)))))).
  - intros K HK.
    rewrite (spec_cross_term_nonzero _ _ _ _ _ _ HK).
    unfold regime_C1, regime_S1. dec_norm. field. exact HK.
  - eapply limit1_in_value; [limit_auto | field].
Qed.

(** With [A = - K * y] (the vertical drive [C_]), the limit is the
    [0.5 * D ^ 2 * L] of the [Ky == 0] branch. *)
Lemma vertical_cross_term_continuous_at_0 (y D L : R) :
  continuity_pt
    (fun K => spec_cross_term K (- K * y) D (regime_S K L) (regime_C K L) L)
    0.
Proof.
  apply continuity_pt_of_limit.
  rewrite spec_cross_term_zero.
  apply (limit1_in_pointwise
           (fun K => spec_cross_term K (- K * y + 0) D
                       (regime_S K L) (regime_C K L) L)).
  - intros K _. rewrite Rplus_0_l, Rplus_0_r. reflexivity.
  - eapply limit1_in_value; [apply cross_term_limit_at_0 |].
    dec_norm. field.
Qed.

(** The horizontal cross term is continuous at [Kx = 0] only if the
    extra terms vanish. *)
Lemma horizontal_cross_term_jump (x A0 B L : R) :
  continuity_pt
    (fun K => spec_cross_term K (- K * x + A0) B
                (regime_S K L) (regime_C K L) L) 0
  -> A0 * B * L ^ 2 + A0 ^ 2 * L ^ 3 / 3 = 0.
Proof.
  intros Hcont.
  assert (Hl : limit1_in
                 (fun K => spec_cross_term K (- K * x + A0) B
                             (regime_S K L) (regime_C K L) L)
                 nonzero (0.5 * B ^ 2 * L) 0).
  { intros eps Heps. destruct (Hcont eps Heps) as (alp & Halp & Hclose).
    exists alp. split; [exact Halp |].
    intros K [HK Hd]. rewrite <- (spec_cross_term_zero (- 0 * x + A0) B
                                    (regime_S 0 L) (regime_C 0 L) L).
    apply Hclose. split; [| exact Hd].
    split; [exact I |]. intros Heq. apply HK. symmetry. exact Heq. }
  assert (Hadh : adhDa nonzero 0).
  { intros alp Halp. exists (alp / 2). split.
    - unfold nonzero. lra.
    - simpl. unfold R_dist. rewrite Rminus_0_r, Rabs_pos_eq; lra. }
  pose proof (single_limit _ _ _ _ _ Hadh Hl (cross_term_limit_at_0 x A0 B L))
    as Heq.
  rewrite dec_half in Heq. lra.
Qed.

(** *** The vertical plane, [k1] swept through the value where [Ky = 0] *)

Section vertical_sweep.

Variable el : ThickCombinedFunctionDipoleData.
Variable part : LocalParticle.
Hypothesis Hdp : CFD.delta_plus_1 part <> 0.
Hypothesis HKy : CFD.Ky el part = 0.

Lemma Ky_at (K : R) : CFD.Ky (sweep_Ky el part K) part = K.
Proof.
  assert (E : CFD.Ky (sweep_Ky el part K) part = CFD.Ky el part + K).
  { unfold CFD.Ky, CFD.k1, CFD.k1_, sweep_Ky, with_k1.
    unfold ThickCombinedFunctionDipoleData_get_k1.
    simpl. field. exact Hdp. }
  rewrite E, HKy. ring.
Qed.

Lemma y_at (K : R) :
  CFD.y_ (sweep_Ky el part K) part
  = CFD.y part * regime_C K (CFD.length el)
    + CFD.yp part * regime_S K (CFD.length el).
Proof.
  unfold CFD.y_. rewrite Sy_regime, Cy_regime, Ky_at. reflexivity.
Qed.

Lemma py_at (K : R) :
  CFD.py_ (sweep_Ky el part K) part
  = (- K * CFD.y part * regime_S K (CFD.length el)
     + CFD.D part * regime_C K (CFD.length el))
    * CFD.delta_plus_1 part.
Proof.
  unfold CFD.py_, CFD.C. rewrite Sy_regime, Cy_regime, Ky_at. reflexivity.
Qed.

Lemma el_at_0 : with_k1 el (el_k1 el) = el.
Proof. destruct el; reflexivity. Qed.

(** The new [y] is continuous in [k1] where [Ky = 0]. *)
Lemma y_continuous_at_Ky_0 :
  continuity_pt (fun k => CFD.y_ (with_k1 el k) part) (el_k1 el).
Proof.
  apply continuity_pt_of_limit_at.
  apply (limit_at_of_scaled_limit _ _ (- CFD.delta_plus_1 part)); [lra |].
  rewrite el_at_0.
  eapply limit1_in_pointwise.
  - intros K _. symmetry. apply (y_at K).
  - eapply limit1_in_value; [limit_auto |].
    unfold CFD.y_.
    rewrite Sy_regime, Cy_regime, HKy, regime_S_0, regime_C_0. ring.
Qed.

(** The new [py] is continuous in [k1] where [Ky = 0]. *)
Lemma py_continuous_at_Ky_0 :
  continuity_pt (fun k => CFD.py_ (with_k1 el k) part) (el_k1 el).
Proof.
  apply continuity_pt_of_limit_at.
  apply (limit_at_of_scaled_limit _ _ (- CFD.delta_plus_1 part)); [lra |].
  rewrite el_at_0.
  eapply limit1_in_pointwise.
  - intros K _. symmetry. apply (py_at K).
  - eapply limit1_in_value; [limit_auto |].
    unfold CFD.py_, CFD.C.
    rewrite Sy_regime, Cy_regime, HKy, regime_S_0, regime_C_0. ring.
Qed.

Lemma length_v_at (K : R) :
  K <> 0 ->
  CFD.length_ (sweep_Ky el part K) part - CFD.length_h (sweep_Ky el part K) part
  = spec_cross_term K (- K * CFD.y part + 0) (CFD.D part)
      (regime_S K (CFD.length el)) (regime_C K (CFD.length el))
      (CFD.length el).
Proof.
  intros HK.
  assert (HK' : CFD.Ky (sweep_Ky el part K) part <> 0) by (rewrite Ky_at; exact HK).
  rewrite (length_v_nonzero _ _ HK'), (spec_cross_term_nonzero _ _ _ _ _ _ HK).
  unfold CFD.C, POW2. rewrite Sy_regime, Cy_regime, Ky_at.
  change (CFD.length (sweep_Ky el part K)) with (CFD.length el).
  dec_norm. field. exact HK.
Qed.

(** The vertical contribution to the path length is continuous in [k1]
    where [Ky = 0]. *)
Lemma length_v_continuous_at_Ky_0 :
  continuity_pt
    (fun k => CFD.length_ (with_k1 el k) part
              - CFD.length_h (with_k1 el k) part)
    (el_k1 el).
Proof.
  apply continuity_pt_of_limit_at.
  apply (limit_at_of_scaled_limit _ _ (- CFD.delta_plus_1 part)); [lra |].
  rewrite el_at_0.
  eapply limit1_in_pointwise.
  - intros K HK. symmetry. apply (length_v_at K HK).
  - eapply limit1_in_value; [apply cross_term_limit_at_0 |].
    rewrite (length_v_zero _ _ HKy). unfold POW2. field.
Qed.

End vertical_sweep.

(** *** The increment of [zeta] is not continuous at [Kx = 0] *)

Lemma kick_length_ (k : R) :
  CFD.length_ (with_k1 kick_el k) axis_particle
  = CFD.length_h (with_k1 kick_el k) axis_particle.
Proof.
  assert (EC : CFD.C (with_k1 kick_el k) axis_particle = 0).
  { unfold CFD.C, CFD.y. simpl. ring. }
  assert (ED : CFD.D axis_particle = 0).
  { unfold CFD.D, CFD.yp, CFD.py. simpl. apply Rdiv_0_l'. }
  destruct (Req_dec_T (CFD.Ky (with_k1 kick_el k) axis_particle) 0)
    as [HK | HK].
  - rewrite (length_v_zero _ _ HK), ED. unfold POW2. ring.
  - rewrite (length_v_nonzero _ _ HK), EC, ED. unfold POW2.
    field. exact HK.
Qed.

Lemma kick_zeta (k : R) :
  LocalParticle_get_zeta (track (with_k1 kick_el k) axis_particle)
  = 1 - CFD.length_h (with_k1 kick_el k) axis_particle.
Proof.
  change (LocalParticle_get_zeta (track (with_k1 kick_el k) axis_particle))
    with (p_zeta axis_particle
          + CFD.z_ (with_k1 kick_el k) axis_particle
            * CFD.beta0 axis_particle).
  unfold CFD.z_. rewrite kick_length_.
  assert (Ebeti : CFD.beti axis_particle = 1).
  { unfold CFD.beti, CFD.beta0. simpl. lra. }
  assert (Ebet : CFD.bet axis_particle = 1).
  { unfold CFD.bet. rewrite Ebeti. unfold CFD.delta_plus_1, CFD.pt.
    simpl. lra. }
  rewrite Ebeti, Ebet. unfold CFD.beta0. simpl. field.
Qed.

Lemma kick_delta_plus_1 : CFD.delta_plus_1 axis_particle <> 0.
Proof. unfold CFD.delta_plus_1. simpl. lra. Qed.

Lemma kick_Kx : CFD.Kx kick_el axis_particle = 0.
Proof.
  unfold CFD.Kx, CFD.k0, CFD.k1, CFD.k0_, CFD.k1_, CFD.h, CFD.delta_plus_1.
  simpl. lra.
Qed.

Lemma kick_length_h : CFD.length_h kick_el axis_particle = 1.
Proof.
  rewrite (length_h_zero _ _ kick_Kx).
  assert (EB : CFD.B axis_particle = 0).
  { unfold CFD.B, CFD.xp, CFD.px. simpl. apply Rdiv_0_l'. }
  rewrite EB. unfold CFD.h, CFD.length, POW2. simpl. lra.
Qed.

Lemma kick_zeta_limit :
  limit1_in
    (fun k => LocalParticle_get_zeta (track (with_k1 kick_el k) axis_particle))
    (fun k => k <> 0) (- / 6) 0.
Proof.
  apply (limit1_in_pointwise
           (fun k => 1 - CFD.length_h (with_k1 kick_el k) axis_particle)).
  - intros k _. symmetry. apply kick_zeta.
  - eapply limit1_in_value.
    + apply limit_minus; [apply limit_const |].
      apply (length_h_limit_at_Kx_0 kick_el axis_particle
               kick_delta_plus_1 kick_Kx).
    + rewrite kick_length_h.
      assert (EB : CFD.B axis_particle = 0).
      { unfold CFD.B, CFD.xp, CFD.px. simpl. apply Rdiv_0_l'. }
      rewrite EB. unfold CFD.h, CFD.k0, CFD.k0_, CFD.length, CFD.delta_plus_1.
      simpl. lra.
Qed.


(** *** Instances of the sweeps *)

(** Scenario 1 has [k1 = 0], hence [Ky = 0]: its new [y] and [py] are
    continuous in [k1] there. *)
Example scenario1_vertical_continuous :
  continuity_pt (fun k => CFD.y_ (with_k1 scenario1_el k) scenario1_part) 0.0
  /\ continuity_pt
       (fun k => CFD.py_ (with_k1 scenario1_el k) scenario1_part) 0.0.
Proof.
  assert (Hdp : CFD.delta_plus_1 scenario1_part <> 0).
  { unfold CFD.delta_plus_1. simpl. lra. }
  assert (HKy : CFD.Ky scenario1_el scenario1_part = 0).
  { unfold CFD.Ky, CFD.k1, CFD.k1_, CFD.delta_plus_1. simpl. lra. }
  split.
  - apply (y_continuous_at_Ky_0 scenario1_el scenario1_part Hdp HKy).
  - apply (py_continuous_at_Ky_0 scenario1_el scenario1_part Hdp HKy).
Qed.

(** The unit dipole on a straight reference: its new [x] and [px] are
    continuous in [k1] at [Kx = 0] (only [zeta] jumps, see below). *)
Example kick_horizontal_continuous :
  continuity_pt (fun k => CFD.x_ (with_k1 kick_el k) axis_particle) 0
  /\ continuity_pt (fun k => CFD.px_ (with_k1 kick_el k) axis_particle) 0.
Proof.
  split.
  - apply (x_continuous_at_Kx_0 kick_el axis_particle
             kick_delta_plus_1 kick_Kx).
  - apply (px_continuous_at_Kx_0 kick_el axis_particle
             kick_delta_plus_1 kick_Kx).
Qed.
(** C3 (the defect).  For the unit dipole with a straight reference and
    the particle on the axis, the code at [k1 = 0] (where [Kx = Ky = 0])
    moves [x] to [-1/2] but adds 0 to [zeta]; as [k1] tends to 0 the
    added value tends to [-1/6]; so the [zeta] written by the map is not
    continuous at [Kx = 0]. *)
Theorem zeta_jump_at_Kx_0 :
  CFD.Kx kick_el axis_particle = 0
  /\ LocalParticle_get_x (track kick_el axis_particle) = - / 2
  /\ LocalParticle_get_zeta (track kick_el axis_particle) = 0
  /\ limit1_in
       (fun k =>
          LocalParticle_get_zeta (track (with_k1 kick_el k) axis_particle))
       (fun k => k <> 0) (- / 6) 0
  /\ ~ continuity_pt
         (fun k =>
            LocalParticle_get_zeta (track (with_k1 kick_el k) axis_particle))
         0.
Proof.
  assert (Ez : LocalParticle_get_zeta (track kick_el axis_particle) = 0).
  { change kick_el with (with_k1 kick_el 0). rewrite kick_zeta.
    change (with_k1 kick_el 0) with kick_el. rewrite kick_length_h. ring. }
  split; [exact kick_Kx |].
  split.
  { change (LocalParticle_get_x (track kick_el axis_particle))
      with (CFD.x_ kick_el axis_particle).
    rewrite (x_zero _ _ kick_Kx). unfold CFD.x_0.
    rewrite Sx_regime, Cx_regime, kick_Kx, regime_S_0, regime_C_0.
    unfold CFD.x, CFD.xp, CFD.px, CFD.k0, CFD.k0_, CFD.h, CFD.length,
      CFD.delta_plus_1.
    simpl. lra. }
  split; [exact Ez |].
  split; [exact kick_zeta_limit |].
  intros Hcont.
  assert (Hl : limit1_in
                 (fun k => LocalParticle_get_zeta
                             (track (with_k1 kick_el k) axis_particle))
                 (fun k => k <> 0) 0 0).
  { intros eps Heps. destruct (Hcont eps Heps) as (alp & Halp & Hclose).
    exists alp. split; [exact Halp |].
    intros k [Hk Hd].
    assert (Hk' : D_x no_cond 0 k).
    { split; [exact I |]. intros Heq. apply Hk. symmetry. exact Heq. }
    specialize (Hclose k (conj Hk' Hd)). cbv beta in Hclose.
    change (with_k1 kick_el 0) with kick_el in Hclose.
    rewrite Ez in Hclose. exact Hclose. }
  assert (Hadh : adhDa (fun k : R => k <> 0) 0).
  { intros alp Halp. exists (alp / 2). split.
    - lra.
    - simpl. unfold R_dist. rewrite Rminus_0_r, Rabs_pos_eq; lra. }
  pose proof (single_limit _ _ _ _ _ Hadh Hl kick_zeta_limit) as Heq.
  lra.
Qed.

(** * Further properties of the map *)

(** ** The regime functions *)

Lemma cosh2_sinh2 (c : R) : cosh c * cosh c - sinh c * sinh c = 1.
Proof.
  unfold cosh, sinh.
  assert (E : exp c * exp (- c) = 1).
  { rewrite <- exp_plus, Rplus_opp_r. apply exp_0. }
  nra.
Qed.

Lemma regime_E_nonzero (K L : R) :
  K <> 0 -> regime_E K L = (regime_C K L - 1) / K.
Proof.
  intros HK. unfold regime_E. apply NONZERO_true in HK. rewrite HK.
  dec_norm. reflexivity.
Qed.

Lemma regime_E_0 (L : R) : regime_E 0 L = - (L * L / 2).
Proof.
  unfold regime_E. rewrite NONZERO_0. unfold POW2. dec_norm. field.
Qed.


(** ** The transverse map in the three regimes at once *)

Lemma x_form (el : ThickCombinedFunctionDipoleData) (part : LocalParticle) :
  CFD.x_ el part
  = CFD.x part * regime_C (CFD.Kx el part) (CFD.length el)
    + CFD.xp part * regime_S (CFD.Kx el part) (CFD.length el)
    + (CFD.k0 el part - CFD.h el) * regime_E (CFD.Kx el part) (CFD.length el).
Proof.
  destruct (Req_dec_T (CFD.Kx el part) 0) as [HK | HK].
  - rewrite (x_zero el part HK). unfold CFD.x_0.
    rewrite Sx_regime, Cx_regime, HK, regime_E_0. field.
  - rewrite (x_nonzero el part HK). unfold CFD.x_0.
    rewrite Sx_regime, Cx_regime, (regime_E_nonzero _ _ HK). field. exact HK.
Qed.

Lemma px_form (el : ThickCombinedFunctionDipoleData) (part : LocalParticle) :
  CFD.px_ el part
  = ((- CFD.Kx el part * CFD.x part - CFD.k0 el part + CFD.h el)
       * regime_S (CFD.Kx el part) (CFD.length el)
     + CFD.xp part * regime_C (CFD.Kx el part) (CFD.length el))
    * CFD.delta_plus_1 part.
Proof.
  unfold CFD.px_, CFD.A, CFD.B. rewrite Sx_regime, Cx_regime. reflexivity.
Qed.

Lemma y_form (el : ThickCombinedFunctionDipoleData) (part : LocalParticle) :
  CFD.y_ el part
  = CFD.y part * regime_C (CFD.Ky el part) (CFD.length el)
    + CFD.yp part * regime_S (CFD.Ky el part) (CFD.length el).
Proof. unfold CFD.y_. rewrite Sy_regime, Cy_regime. reflexivity. Qed.

Lemma py_form (el : ThickCombinedFunctionDipoleData) (part : LocalParticle) :
  CFD.py_ el part
  = (- CFD.Ky el part * CFD.y part
       * regime_S (CFD.Ky el part) (CFD.length el)
     + CFD.yp part * regime_C (CFD.Ky el part) (CFD.length el))
    * CFD.delta_plus_1 part.
Proof.
  unfold CFD.py_, CFD.C, CFD.D. rewrite Sy_regime, Cy_regime. reflexivity.
Qed.

Lemma length_h_excess (el : ThickCombinedFunctionDipoleData)
    (part : LocalParticle) :
  CFD.Kx el part <> 0 ->
  CFD.length_h el part
  = CFD.length el
    + path_excess (CFD.Kx el part) (CFD.h el) (CFD.k0 el part - CFD.h el)
        (CFD.length el)
        (regime_S (CFD.Kx el part) (CFD.length el))
        (regime_C (CFD.Kx el part) (CFD.length el))
        (CFD.x part) (CFD.xp part).
Proof.
  intros HK. rewrite (length_h_nonzero el part HK).
  unfold path_excess, POW2, CFD.A, CFD.B.
  rewrite Sx_regime, Cx_regime. field. exact HK.
Qed.

Lemma length_v_excess (el : ThickCombinedFunctionDipoleData)
    (part : LocalParticle) :
  CFD.Ky el part <> 0 ->
  CFD.length_ el part
  = CFD.length_h el part
    + path_excess (CFD.Ky el part) 0 0 (CFD.length el)
        (regime_S (CFD.Ky el part) (CFD.length el))
        (regime_C (CFD.Ky el part) (CFD.length el))
        (CFD.y part) (CFD.yp part).
Proof.
  intros HK. rewrite (length_v_nonzero el part HK).
  unfold path_excess, POW2, CFD.C, CFD.D.
  rewrite Sy_regime, Cy_regime. field. exact HK.
Qed.

(** ** Symmetry *)

(** X6.  Midplane symmetry: reflecting the particle ([y], [py] negated)
    before the map or after it gives the same particle; in particular
    [x], [px] and the increment of [zeta] do not depend on the sign of
    the vertical coordinates. *)
Theorem midplane_symmetry (el : ThickCombinedFunctionDipoleData)
    (part : LocalParticle) :
  track el (mirror_y part) = mirror_y (track el part).
Proof.
  assert (Ey : CFD.y_ el (mirror_y part) = - CFD.y_ el part).
  { rewrite !y_form.
    change (CFD.Ky el (mirror_y part)) with (CFD.Ky el part).
    change (CFD.yp (mirror_y part))
      with (CFD.py (mirror_y part) / CFD.delta_plus_1 part).
    unfold CFD.yp, CFD.y, CFD.py, mirror_y, LocalParticle_get_y,
      LocalParticle_get_py.
    simpl. unfold Rdiv. ring. }
  assert (Epy : CFD.py_ el (mirror_y part) = - CFD.py_ el part).
  { rewrite !py_form.
    change (CFD.Ky el (mirror_y part)) with (CFD.Ky el part).
    change (CFD.delta_plus_1 (mirror_y part)) with (CFD.delta_plus_1 part).
    change (CFD.yp (mirror_y part))
      with (CFD.py (mirror_y part) / CFD.delta_plus_1 part).
    unfold CFD.yp, CFD.y, CFD.py, mirror_y, LocalParticle_get_y,
      LocalParticle_get_py.
    simpl. unfold Rdiv. ring. }
  assert (EC : CFD.C el (mirror_y part) = - CFD.C el part).
  { unfold CFD.C.
    change (CFD.Ky el (mirror_y part)) with (CFD.Ky el part).
    unfold CFD.y, mirror_y, LocalParticle_get_y. simpl. ring. }
  assert (ED : CFD.D (mirror_y part) = - CFD.D part).
  { unfold CFD.D.
    change (CFD.yp (mirror_y part))
      with (CFD.py (mirror_y part) / CFD.delta_plus_1 part).
    unfold CFD.yp, CFD.py, mirror_y, LocalParticle_get_py.
    simpl. unfold Rdiv. ring. }
  assert (El : CFD.length_ el (mirror_y part) = CFD.length_ el part).
  { destruct (Req_dec_T (CFD.Ky el part) 0) as [HK | HK].
    - rewrite (length_v_zero el part HK), (length_v_zero el (mirror_y part) HK).
      rewrite ED. unfold POW2.
      change (CFD.length_h el (mirror_y part)) with (CFD.length_h el part).
      ring.
    - rewrite (length_v_nonzero el part HK),
        (length_v_nonzero el (mirror_y part) HK).
      rewrite EC, ED. unfold POW2.
      change (CFD.length_h el (mirror_y part)) with (CFD.length_h el part).
      change (CFD.Cy el (mirror_y part)) with (CFD.Cy el part).
      change (CFD.Sy el (mirror_y part)) with (CFD.Sy el part).
      change (CFD.Ky el (mirror_y part)) with (CFD.Ky el part).
      field. exact HK. }
  assert (Ez : CFD.z_ el (mirror_y part) = CFD.z_ el part).
  { unfold CFD.z_. rewrite El. reflexivity. }
  rewrite (track_fields el (mirror_y part)), Ey, Epy, Ez.
  reflexivity.
Qed.

(** ** The design orbit *)

Lemma path_excess_on_axis (K h L S C : R) :
  K <> 0 -> path_excess K h 0 L S C 0 0 = 0.
Proof. intros HK. unfold path_excess. field. exact HK. Qed.

(** X7.  A particle on the axis whose scaled dipole strength equals the
    curvature ([k0 / delta_plus_1 = h]) stays on the axis, and its path
    length is the design length, so that [z_] is
    [length * beti - length / bet]. *)
Theorem design_orbit (el : ThickCombinedFunctionDipoleData)
    (part : LocalParticle) :
  LocalParticle_get_delta part + 1 <> 0 ->
  CFD.k0 el part = CFD.h el ->
  LocalParticle_get_x part = 0 ->
  LocalParticle_get_px part = 0 ->
  LocalParticle_get_y part = 0 ->
  LocalParticle_get_py part = 0 ->
  LocalParticle_get_x (track el part) = 0
  /\ LocalParticle_get_px (track el part) = 0
  /\ LocalParticle_get_y (track el part) = 0
  /\ LocalParticle_get_py (track el part) = 0
  /\ CFD.length_ el part = CFD.length el
  /\ CFD.z_ el part
     = CFD.length el * CFD.beti part - CFD.length el / CFD.bet part.
Proof.
  intros Hdp Hk Hx Hpx Hy Hpy.
  assert (Exp : CFD.xp part = 0).
  { unfold CFD.xp, CFD.px. rewrite Hpx. apply Rdiv_0_l'. }
  assert (Eyp : CFD.yp part = 0).
  { unfold CFD.yp, CFD.py. rewrite Hpy. apply Rdiv_0_l'. }
  assert (Ex : CFD.x_ el part = 0).
  { rewrite x_form, Exp, Hk. unfold CFD.x. rewrite Hx. ring. }
  assert (Epx : CFD.px_ el part = 0).
  { rewrite px_form, Exp. unfold CFD.x. rewrite Hx, Hk. ring. }
  assert (Ey : CFD.y_ el part = 0).
  { rewrite y_form, Eyp. unfold CFD.y. rewrite Hy. ring. }
  assert (Epy : CFD.py_ el part = 0).
  { rewrite py_form, Eyp. unfold CFD.y. rewrite Hy. ring. }
  assert (Elh : CFD.length_h el part = CFD.length el).
  { destruct (Req_dec_T (CFD.Kx el part) 0) as [HK | HK].
    - rewrite (length_h_zero el part HK). unfold CFD.B, POW2.
      rewrite Exp, Hk. unfold CFD.x. rewrite Hx. field.
    - rewrite (length_h_excess el part HK), Exp, Hk. unfold CFD.x.
      rewrite Hx, Rminus_diag, (path_excess_on_axis _ _ _ _ _ HK). ring. }
  assert (El : CFD.length_ el part = CFD.length el).
  { destruct (Req_dec_T (CFD.Ky el part) 0) as [HK | HK].
    - rewrite (length_v_zero el part HK), Elh. unfold CFD.D, POW2.
      rewrite Eyp. ring.
    - rewrite (length_v_excess el part HK), Elh, Eyp. unfold CFD.y.
      rewrite Hy, (path_excess_on_axis _ _ _ _ _ HK). ring. }
  repeat (split; [assumption |]).
  unfold CFD.z_. rewrite El. reflexivity.
Qed.

Lemma design_orbit_witness :
  let part := mkLocalParticle 0 0 0 0 3 7 0 0 0.5 1 1 4 in
  LocalParticle_get_x (track scenario1_el part) = 0
  /\ LocalParticle_get_px (track scenario1_el part) = 0
  /\ CFD.length_ scenario1_el part = 2.0.
Proof.
  destruct (design_orbit scenario1_el
              (mkLocalParticle 0 0 0 0 3 7 0 0 0.5 1 1 4))
    as (Hx & Hpx & _ & _ & Hl & _).
  - simpl. lra.
  - unfold CFD.k0, CFD.k0_, CFD.h, CFD.delta_plus_1. simpl. lra.
  - reflexivity.
  - reflexivity.
  - reflexivity.
  - reflexivity.
  - split; [exact Hx | split; [exact Hpx | exact Hl]].
Defined.

(** ** Focusing and defocusing *)

Lemma cosh_ge_1 (c : R) : 1 <= cosh c.
Proof.
  pose proof (cosh2_sinh2 c) as Hu.
  assert (Hpos : 0 < cosh c).
  { unfold cosh. pose proof (exp_pos c). pose proof (exp_pos (- c)). lra. }
  nra.
Qed.

(** X8.  A particle with [delta_plus_1 <> 0] that enters parallel to
    the axis in the vertical plane ([py = 0]) leaves with [|y|] no
    larger when [Ky > 0] (focusing), no smaller when [Ky < 0]
    (defocusing), and unchanged when [Ky = 0]. *)
Theorem vertical_focusing (el : ThickCombinedFunctionDipoleData)
    (part : LocalParticle) :
  LocalParticle_get_delta part + 1 <> 0 ->
  LocalParticle_get_py part = 0 ->
  (CFD.Ky el part > 0 ->
   Rabs (LocalParticle_get_y (track el part))
   <= Rabs (LocalParticle_get_y part))
  /\ (CFD.Ky el part < 0 ->
      Rabs (LocalParticle_get_y part)
      <= Rabs (LocalParticle_get_y (track el part)))
  /\ (CFD.Ky el part = 0 ->
      LocalParticle_get_y (track el part) = LocalParticle_get_y part).
Proof.
  intros Hdp Hpy.
  assert (Ey : LocalParticle_get_y (track el part)
               = LocalParticle_get_y part
                 * regime_C (CFD.Ky el part) (CFD.length el)).
  { change (LocalParticle_get_y (track el part)) with (CFD.y_ el part).
    rewrite y_form. unfold CFD.yp, CFD.py. rewrite Hpy, Rdiv_0_l'.
    unfold CFD.y. ring. }
  rewrite Ey, Rabs_mult.
  pose proof (Rabs_pos (LocalParticle_get_y part)) as Hnn.
  split; [| split].
  - intros HK. rewrite (regime_C_pos _ _ HK).
    pose proof (COS_bound (sqrt (CFD.Ky el part) * CFD.length el)) as [Hlo Hhi].
    assert (Hc : Rabs (cos (sqrt (CFD.Ky el part) * CFD.length el)) <= 1)
      by (apply Rabs_le; lra).
    nra.
  - intros HK. rewrite (regime_C_neg _ _ HK).
    pose proof (cosh_ge_1 (sqrt (- CFD.Ky el part) * CFD.length el)) as Hc.
    rewrite (Rabs_pos_eq (cosh _)) by lra.
    nra.
  - intros HK. rewrite HK, regime_C_0. ring.
Qed.

Lemma vertical_focusing_witness :
  Rabs (LocalParticle_get_y (track scenario2_reversed_el scenario1_part))
  <= Rabs (LocalParticle_get_y scenario1_part)
  /\ Rabs (LocalParticle_get_y scenario1_part)
     <= Rabs (LocalParticle_get_y (track scenario2_el scenario1_part))
  /\ LocalParticle_get_y (track scenario1_el scenario1_part)
     = LocalParticle_get_y scenario1_part.
Proof.
  assert (Hdp : LocalParticle_get_delta scenario1_part + 1 <> 0)
    by (simpl; lra).
  assert (Hpy : LocalParticle_get_py scenario1_part = 0) by (simpl; lra).
  split; [| split].
  - apply (proj1 (vertical_focusing scenario2_reversed_el scenario1_part
                    Hdp Hpy)).
    unfold CFD.Ky, CFD.k1, CFD.k1_, CFD.delta_plus_1. simpl. lra.
  - apply (proj1 (proj2 (vertical_focusing scenario2_el scenario1_part
                           Hdp Hpy))).
    unfold CFD.Ky, CFD.k1, CFD.k1_, CFD.delta_plus_1. simpl. lra.
  - apply (proj2 (proj2 (vertical_focusing scenario1_el scenario1_part
                           Hdp Hpy))).
    unfold CFD.Ky, CFD.k1, CFD.k1_, CFD.delta_plus_1. simpl. lra.
Defined.

(** ** When the map divides by zero *)

Lemma Rdiv_nonzero (a b : R) : a <> 0 -> b <> 0 -> a / b <> 0.
Proof.
  intros Ha Hb Hq. apply Ha.
  replace a with (a / b * b) by (field; exact Hb).
  rewrite Hq. ring.
Qed.

Lemma sqrt_nonzero_pos (K : R) : (K >? 0.0) = true -> sqrt K <> 0.
Proof.
  intros HK. apply Rgtb_true in HK.
  apply Rgt_not_eq. apply sqrt_lt_R0. lra.
Qed.

Lemma sqrt_nonzero_neg (K : R) : (K <? 0.0) = true -> sqrt (- K) <> 0.
Proof.
  intros HK. apply Rltb_true in HK.
  apply Rgt_not_eq. apply sqrt_lt_R0. lra.
Qed.

Lemma twice_nonzero (K : R) : NONZERO K = true -> 2.0 * K <> 0.
Proof. intros HK. apply NONZERO_true in HK. lra. Qed.

Lemma two_nonzero : 2.0 <> 0.
Proof. lra. Qed.

Lemma six_nonzero : 6.0 <> 0.
Proof. lra. Qed.

Ltac nonzero_events H1 H2 H3 :=
  repeat (apply Forall_cons;
          [cbn [snd];
           first [ exact H1 | exact H2 | exact H3
                 | exact (Rdiv_nonzero _ _ H3 H2)
                 | exact two_nonzero | exact six_nonzero
                 | apply sqrt_nonzero_pos; assumption
                 | apply sqrt_nonzero_neg; assumption
                 | apply twice_nonzero; assumption
                 | apply NONZERO_true; assumption ] |]);
  apply Forall_nil.

(** X9.  The map performs no division by zero at all exactly when
    [rvv * beta0], [beti + pt] and [delta_plus_1] are not 0: every
    other divisor (the square roots, [Kx], [Ky], their doubles, the
    literals and [bet]) is then not 0 either. *)
Theorem divisions_safe_iff (el : ThickCombinedFunctionDipoleData)
    (part : LocalParticle) :
  Forall (fun ev : Traced.event => snd ev <> 0)
         (snd (Traced.track_traced el part))
  <-> (LocalParticle_get_rvv part * CFD.beta0 part <> 0
       /\ CFD.beti part + CFD.pt part <> 0
       /\ CFD.delta_plus_1 part <> 0).
Proof.
  unfold Traced.track_traced.
  cbn [Traced.bind Traced.div Traced.ret fst snd app].
  change (ThickCombinedFunctionDipoleData_get_k0 el
          / (LocalParticle_get_delta part + 1)
          * ThickCombinedFunctionDipoleData_get_h el
          + ThickCombinedFunctionDipoleData_get_k1 el
            / (LocalParticle_get_delta part + 1))
    with (CFD.Kx el part).
  change (- (ThickCombinedFunctionDipoleData_get_k1 el
             / (LocalParticle_get_delta part + 1)))
    with (CFD.Ky el part).
  split.
  - intros Hall.
    inversion Hall as [| e1 l1 He1 Hl1]; subst.
    inversion Hl1 as [| e2 l2 He2 Hl2]; subst.
    inversion Hl2 as [| e3 l3 He3 Hl3]; subst.
    repeat split; assumption.
  - intros (H1 & H2 & H3).
    destruct (NONZERO (CFD.Kx el part)) eqn:HKx;
      destruct (NONZERO (CFD.Ky el part)) eqn:HKy;
      destruct (CFD.Kx el part >? 0.0) eqn:HKxp;
      destruct (CFD.Kx el part <? 0.0) eqn:HKxn;
      destruct (CFD.Ky el part >? 0.0) eqn:HKyp;
      destruct (CFD.Ky el part <? 0.0) eqn:HKyn;
      cbn [Traced.bind Traced.div Traced.ret fst snd app];
      nonzero_events H1 H2 H3.
Qed.

Lemma divisions_safe_iff_witness :
  Forall (fun ev : Traced.event => snd ev <> 0)
         (snd (Traced.track_traced scenario1_el scenario1_part)).
Proof.
  apply (proj2 (divisions_safe_iff scenario1_el scenario1_part)).
  unfold CFD.beti, CFD.pt, CFD.beta0, CFD.delta_plus_1. simpl.
  repeat split; lra.
Defined.

(** ** The guards *)

(** X10.  The bulk kill keeps the size of the batch, leaves every
    particle with the kill code as [state] and with its [at_turn], and
    applying it twice is applying it once. *)
Theorem kill_all_particles_effect (part0 : list LocalParticle)
    (kill_state : Z) :
  List.length (Checks.kill_all_particles part0 kill_state)
  = List.length part0
  /\ Forall (fun part => LocalParticle_get_state part = kill_state)
            (Checks.kill_all_particles part0 kill_state)
  /\ map LocalParticle_get_at_turn
         (Checks.kill_all_particles part0 kill_state)
     = map LocalParticle_get_at_turn part0
  /\ Checks.kill_all_particles
       (Checks.kill_all_particles part0 kill_state) kill_state
     = Checks.kill_all_particles part0 kill_state.
Proof.
  split; [apply length_map |].
  split; [apply kill_all_particles_state |].
  split; [| apply kill_all_particles_idempotent].
  induction part0 as [| part rest IH]; simpl.
  - reflexivity.
  - rewrite IH. reflexivity.
Qed.

(** X11.  Asserting twice is asserting once: a second call of
    [assert_tracking] with the same code returns the flag and the
    particle of the first. *)
Theorem assert_tracking_idempotent (part : LocalParticle) (kill_state : Z) :
  Checks.assert_tracking
    (fst (Checks.assert_tracking part kill_state)) kill_state
  = Checks.assert_tracking part kill_state.
Proof.
  unfold Checks.assert_tracking.
  destruct (LocalParticle_get_at_turn part <? 0)%Z eqn:Hturn; simpl.
  - unfold LocalParticle_get_at_turn in *. simpl. rewrite Hturn.
    reflexivity.
  - rewrite Hturn. reflexivity.
Qed.

(** ** The straight dipole *)

(** X12.  With [h = 0] and [k1 = 0] (a dipole on a straight reference)
    and [delta_plus_1 <> 0], both constants are 0 and both planes take
    the drift branch: the orbit is the parabola
    [x + xp * length - k0_eff * 0.5 * (length * length)], not an arc of a
    circle, the new [px] is [(- k0_eff * length + xp) * delta_plus_1], and
    the vertical plane drifts ([k0_eff = k0 / delta_plus_1],
    [xp = px / delta_plus_1], [yp = py / delta_plus_1]). *)
Theorem straight_dipole_kick (length k0 : R) (part : LocalParticle) :
  LocalParticle_get_delta part + 1 <> 0 ->
  let el := mkThickCombinedFunctionDipoleData length k0 0 0 in
  let delta_plus_1 := LocalParticle_get_delta part + 1 in
  let k0_eff := k0 / delta_plus_1 in
  let xp := LocalParticle_get_px part / delta_plus_1 in
  let yp := LocalParticle_get_py part / delta_plus_1 in
  let q := track el part in
  CFD.Kx el part = 0
  /\ CFD.Ky el part = 0
  /\ LocalParticle_get_x q
     = LocalParticle_get_x part + xp * length
       - k0_eff * 0.5 * (length * length)
  /\ LocalParticle_get_px q = (- k0_eff * length + xp) * delta_plus_1
  /\ LocalParticle_get_y q = LocalParticle_get_y part + yp * length
  /\ LocalParticle_get_py q = yp * delta_plus_1.
Proof.
  intros Hdp el delta_plus_1 k0_eff xp yp q.
  assert (Eh : CFD.h el = 0) by reflexivity.
  assert (Ek1 : CFD.k1 el part = 0) by apply Rdiv_0_l'.
  assert (EKx : CFD.Kx el part = 0).
  { unfold CFD.Kx. rewrite Ek1, Eh. ring. }
  assert (EKy : CFD.Ky el part = 0).
  { unfold CFD.Ky. rewrite Ek1. ring. }
  split; [exact EKx |]. split; [exact EKy |].
  unfold q, LocalParticle_get_px, LocalParticle_get_x,
    LocalParticle_get_y, LocalParticle_get_py.
  change (p_px (track el part)) with (CFD.px_ el part).
  change (p_x (track el part)) with (CFD.x_ el part).
  change (p_y (track el part)) with (CFD.y_ el part).
  change (p_py (track el part)) with (CFD.py_ el part).
  rewrite px_form, x_form, y_form, py_form, EKx, EKy, Eh.
  rewrite !regime_S_0, !regime_C_0, regime_E_0.
  change (CFD.length el) with length.
  change (CFD.k0 el part) with k0_eff.
  change (CFD.delta_plus_1 part) with delta_plus_1.
  change (CFD.xp part) with xp.
  change (CFD.yp part) with yp.
  change (CFD.x part) with (p_x part).
  change (CFD.y part) with (p_y part).
  dec_norm. repeat split; field.
Qed.

Lemma straight_dipole_kick_witness :
  let part := mkLocalParticle 0 0.5 0 0 0 0 1 0 1 1 1 0 in
  let el := mkThickCombinedFunctionDipoleData 2 0.25 0 0 in
  CFD.Kx el part = 0
  /\ LocalParticle_get_px (track el part)
     = (- (0.25 / (1 + 1)) * 2 + 0.5 / (1 + 1)) * (1 + 1).
Proof.
  destruct (straight_dipole_kick 2 0.25
              (mkLocalParticle 0 0.5 0 0 0 0 1 0 1 1 1 0))
    as (HK & _ & _ & Hpx & _).
  - simpl. lra.
  - split; [exact HK | exact Hpx].
Defined.

(** * The map over binary64 numbers, evaluated *)

Module Binary64Facts.

Import PrimFloat.
Import Binary64.
Local Open Scope float_scope.
#[local] Set Warnings "-inexact-float".

(** The inputs below reach none of the [<math.h>] functions. *)
Lemma drift_without_libm (sin cos sinh cosh : float -> float) :
  ThickCombinedFunctionDipole_track_local_particle sin cos sinh cosh
    drift_el heavy_particle
  = ThickCombinedFunctionDipole_track_local_particle
      unreached unreached unreached unreached drift_el heavy_particle
  /\ ThickCombinedFunctionDipole_track_local_particle sin cos sinh cosh
       empty_el heavy_particle
     = ThickCombinedFunctionDipole_track_local_particle
         unreached unreached unreached unreached empty_el heavy_particle
  /\ ThickCombinedFunctionDipole_track_local_particle sin cos sinh cosh
       empty_el still_particle
     = ThickCombinedFunctionDipole_track_local_particle
         unreached unreached unreached unreached empty_el still_particle.
Proof. repeat split; vm_compute; reflexivity. Qed.

(** C5, as stated, fails on the code.  For the drift of unit length and
    the particle with [px = py = 1] and [delta = 48], the code returns
    [px = py = 0x1.fffffffffffffp-1], the rounded [(1 / 49) * 49], which
    is not the [px] and [py] it was given. *)
Lemma drift_momenta_rounded :
  let part' :=
    ThickCombinedFunctionDipole_track_local_particle
      unreached unreached unreached unreached drift_el heavy_particle in
  px part' = 0x1.fffffffffffffp-1
  /\ py part' = 0x1.fffffffffffffp-1
  /\ px part' = px heavy_particle / (delta heavy_particle + 1)
                * (delta heavy_particle + 1)
  /\ (px part' =? px heavy_particle) = false
  /\ (py part' =? py heavy_particle) = false.
Proof. repeat split; vm_compute; reflexivity. Qed.


(** The amended statements at the same inputs: the positions of the
    drift and the zero increments of the empty element. *)
Lemma drift_positions_computed :
  let part' :=
    ThickCombinedFunctionDipole_track_local_particle
      unreached unreached unreached unreached drift_el heavy_particle in
  let heavy' :=
    ThickCombinedFunctionDipole_track_local_particle
      unreached unreached unreached unreached empty_el heavy_particle in
  x part' = x heavy_particle
            + px heavy_particle / (delta heavy_particle + 1) * 1
  /\ x heavy' = x heavy_particle
  /\ zeta heavy' = zeta heavy_particle
  /\ s heavy' = s heavy_particle.
Proof. repeat split; vm_compute; reflexivity. Qed.

(** The path length of the drift, with its terms in the order of
    lines 105-110 and 124, gives the [zeta] the code returns. *)
Lemma drift_zeta_computed :
  let part := heavy_particle in
  let part' :=
    ThickCombinedFunctionDipole_track_local_particle
      unreached unreached unreached unreached drift_el part in
  let beti := 1 / (rvv part * beta0 part) in
  let delta_plus_1 := delta part + 1 in
  let bet := delta_plus_1 / (beti + ptau part) in
  let xp := px part / delta_plus_1 in
  let yp := py part / delta_plus_1 in
  zeta part'
  = zeta part
    + (1 * beti - (1 + 0.5 * (xp * xp) * 1 + 0.5 * (yp * yp) * 1) / bet)
      * beta0 part.
Proof. vm_compute. reflexivity. Qed.

(** The zero-length statements where the constants are not 0
    ([Kx > 0], [Ky < 0]): [x], [y], [zeta] and [s] come back as given,
    the momenta as the products the code forms. *)
Lemma zero_length_computed :
  let part := sample_particle in
  let part' :=
    ThickCombinedFunctionDipole_track_local_particle
      odd_at_0 even_at_0 odd_at_0 even_at_0 cut_el part in
  x part' = x part
  /\ y part' = y part
  /\ px part' = px part / (delta part + 1) * (delta part + 1)
  /\ py part' = py part / (delta part + 1) * (delta part + 1)
  /\ zeta part' = zeta part
  /\ s part' = s part.
Proof. repeat split; vm_compute; reflexivity. Qed.

(** The straight dipole at a sample input: the parabola and the new
    [px] in the operations of lines 81-89. *)
Lemma straight_dipole_computed :
  let part := sample_particle in
  let part' :=
    ThickCombinedFunctionDipole_track_local_particle
      unreached unreached unreached unreached straight_el part in
  let delta_plus_1 := delta part + 1 in
  let k0_eff := 0.25 / delta_plus_1 in
  let xp := px part / delta_plus_1 in
  x part' = x part + xp * 2 - k0_eff * 0.5 * (2 * 2)
  /\ px part' = (- k0_eff * 2 + xp) * delta_plus_1
  /\ y part' = y part + py part / delta_plus_1 * 2
  /\ py part' = py part / delta_plus_1 * delta_plus_1.
Proof. repeat split; vm_compute; reflexivity. Qed.

(** The input of the defect of the horizontal cross term ([k0 = 1],
    [h = 0], [k1 = 0], unit length, particle on the axis): [x] moves to
    [-0.5] and [zeta] gains 0. *)
Lemma kick_computed :
  let part' :=
    ThickCombinedFunctionDipole_track_local_particle
      unreached unreached unreached unreached
      (mkThickCombinedFunctionDipoleData 1 1 0 0)
      (mkLocalParticle 0 0 0 0 0 0 0 0 1 1 1 0) in
  x part' = -0.5 /\ px part' = -1 /\ zeta part' = 0 /\ s part' = 1.
Proof. repeat split; vm_compute; reflexivity. Qed.

End Binary64Facts.
